(** * mget: downloading a file in parts over HTTP

    A shallow embedding of [mget.py] and the properties of its chunk
    planner, its error paths and its reassembly step.

    Python integers are unbounded, so they are [Z].  Byte strings are
    [list byte], text is [string].  The destination directory is a finite
    map from file names to contents.  The statements of [mget] that talk
    to the network or to the disk run in a small state-and-exception monad
    whose state holds the files and the log of everything the program did
    to the outside world. *)

From Stdlib Require Import ZArith Lia List Ascii String Strings.Byte Permutation.
From stdpp Require Import base tactics option list sorting gmap strings pretty.

Local Open Scope Z_scope.

(** ** The Python built-ins the program relies on *)

Module Py.

(** [range(start, stop, step)], as a list.  A zero step raises
    [ValueError] ([None]); the number of elements is computed the way the
    interpreter does. *)
Definition range_len (start stop step : Z) : Z :=
  if decide (0 < step)
  then (if decide (start < stop) then (stop - start - 1) `div` step + 1 else 0)
  else (if decide (stop < start) then (start - stop - 1) `div` (- step) + 1 else 0).

Definition range (start stop step : Z) : option (list Z) :=
  if decide (step = 0) then None
  else Some ((λ k : nat, start + Z.of_nat k * step)
               <$> seq 0 (Z.to_nat (range_len start stop step))).

(** [l[:m]]: the first [m] elements, or all but the last [-m] when [m] is
    negative. *)
Definition slice_to {A} (l : list A) (m : Z) : list A :=
  if decide (0 <= m) then take (Z.to_nat m) l
  else take (length l - Z.to_nat (- m)) l.

(** [b[i:j]] for [0 <= i]. *)
Definition slice {A} (l : list A) (i j : Z) : list A :=
  take (Z.to_nat (j - i)) (drop (Z.to_nat i) l).

(** *** [int(s)] on header text

    Header values are decoded as Latin-1, so a character is an [ascii]
    code point.  [int] strips white space on both sides (tab to carriage
    return, the space, and of the code points above 127 the next-line and
    no-break space characters), takes one optional sign and then decimal
    digits, in which single underscores may separate digits.  A text of
    more than [max_str_digits] digits is turned down: that is the limit of
    the interpreter, 4300 unless it is set otherwise, which the script
    does not do.  On text that is all ASCII this is [int] on any text. *)
Definition is_space (c : ascii) : bool :=
  let n := Z.of_N (N_of_ascii c) in
  bool_decide (9 <= n <= 13 ∨ n = 32 ∨ n = 133 ∨ n = 160).

Definition digit_val (c : ascii) : option Z :=
  let n := Z.of_N (N_of_ascii c) in
  if decide (48 <= n <= 57) then Some (n - 48) else None.

Fixpoint lstrip (l : list ascii) : list ascii :=
  match l with
  | c :: l' => if is_space c then lstrip l' else l
  | [] => []
  end.

Definition strip (l : list ascii) : list ascii :=
  rev (lstrip (rev (lstrip l))).

(** [seen] tells whether the previous character was a digit: an
    underscore is accepted only then, and the text may not end on one. *)
Fixpoint digits (acc : Z) (seen : bool) (l : list ascii) : option Z :=
  match l with
  | [] => if seen then Some acc else None
  | c :: l' =>
      if Ascii.eqb c "_" then (if seen then digits acc false l' else None)
      else match digit_val c with
           | Some d => digits (10 * acc + d) true l'
           | None => None
           end
  end.

Definition max_str_digits : Z := 4300.

(** The number of decimal digits of a text. *)
Definition count_digits (l : list ascii) : Z :=
  Z.of_nat (length (filter (λ c, is_Some (digit_val c)) l)).

(** The digits of a text after its sign, within the limit. *)
Definition limited_digits (l : list ascii) : option Z :=
  if decide (count_digits l <= max_str_digits) then digits 0 false l else None.

(** [None] stands for [ValueError]. *)
Definition int (s : string) : option Z :=
  match strip (list_ascii_of_string s) with
  | c :: l =>
      if Ascii.eqb c "+" then limited_digits l
      else if Ascii.eqb c "-" then Z.opp <$> limited_digits l
      else limited_digits (c :: l)
  | [] => None
  end.

(** *** [sorted] and the order on tuples

    [sorted] is stable and only asks [<]; an insertion sort from the
    right has both properties. *)
Fixpoint insort {A} (lt : A → A → bool) (x : A) (l : list A) : list A :=
  match l with
  | [] => [x]
  | y :: l' => if lt y x then y :: insort lt x l' else x :: l
  end.

Definition sorted_with {A} (lt : A → A → bool) (l : list A) : list A :=
  foldr (insort lt) [] l.

(** [a < b] on [bytes]: lexicographic on the byte values. *)
Fixpoint bytes_lt (a b : list byte) : bool :=
  match a, b with
  | _, [] => false
  | [], _ :: _ => true
  | x :: a', y :: b' =>
      if N.eqb (Byte.to_N x) (Byte.to_N y) then bytes_lt a' b'
      else N.ltb (Byte.to_N x) (Byte.to_N y)
  end.

(** [p < q] on pairs: the second components are compared only when the
    first ones are equal. *)
Definition tuple_lt {B} (lt2 : B → B → bool) (p q : Z * B) : bool :=
  if Z.eqb p.1 q.1 then lt2 p.2 q.2 else Z.ltb p.1 q.1.

Definition sorted (l : list (Z * list byte)) : list (Z * list byte) :=
  sorted_with (tuple_lt bytes_lt) l.

End Py.

(** ** Chunk planning (the first half of [write_chunks]) *)

(** The argument tuple of [get_chunk] without its constant first component
    [urlParts]: [(start, end, filename)]. *)
Definition chunk_arg : Type := Z * Z * Z.

Definition arg_start (a : chunk_arg) : Z := a.1.1.
Definition arg_end (a : chunk_arg) : Z := a.1.2.
Definition arg_filename (a : chunk_arg) : Z := a.2.

Section Planning.

Variables size chunk_size max_chunks : Z.

Definition get_chunk_args (i : Z) : chunk_arg :=
  (i, Z.min (i + chunk_size - 1) size, i).

Definition max_size : Z := Z.min size (chunk_size * max_chunks + 10).

(** The number of offsets [range] yields before the slice. *)
Definition offsets_len : nat := Z.to_nat (Py.range_len 0 max_size chunk_size).

(** [None] stands for the [ValueError] of [range] on a zero step. *)
Definition chunk_args : option (list chunk_arg) :=
  offsets ← Py.range 0 max_size chunk_size;
  Some (Py.slice_to (get_chunk_args <$> offsets) max_chunks).

End Planning.

(** ** The outside world *)

(** The exceptions that can end a run.  [SystemExit] is what [exit(code)]
    raises; [OSError] stands for any failure of the network or of the
    disk, told apart by [what]. *)
Inductive exn : Type :=
  | SystemExit (code : Z)
  | ValueError
  | TypeError
  | OSError (what : string).

(** What the program reads of an HTTP response: [resp.status],
    [resp.getheader('Content-length')] and [resp.read()]. *)
Record response : Type := Response {
  status : Z;
  content_length : option string;
  body : list byte
}.

(** The value of a [Range] header: [RangeExpr v] is the text
    [f'bytes={v}'], [RangeFromTo s e] the text [f'bytes={s}-{e}']. *)
Inductive range_header : Type :=
  | RangeExpr (v : Z)
  | RangeFromTo (first last : Z).

(** What the program does to the outside world, in order. *)
Inductive event : Type :=
  | EvPrint (text : string)
  | EvRequest (method : string) (range : option range_header)
  | EvOpenWb (path : string)
  | EvWriteAb (path : string) (data : list byte).

(** The result of [get_chunk] as a future holds it: the chunk's tuple
    [(filename, content)], or the exception the call ended with. *)
Definition future : Type := exn + (Z * list byte).

(** The server, the disk and the scheduler.  A request either raises or
    yields a response.  [open_error files path] is the exception that
    opening [path] for writing raises, if any.  [schedule] decides the
    order in which the finished futures are handed out: it gives, for each
    future in the order of submission, the place at which it comes in among
    those submitted after it. *)
Record env : Type := Env {
  head : exn + response;
  get : range_header → exn + response;
  open_error : gmap string (list byte) → string → option exn;
  schedule : list nat
}.

Definition insert_at {A} (n : nat) (x : A) (l : list A) : list A :=
  take n l ++ x :: drop n l.

Fixpoint arrive {A} (places : list nat) (l : list A) : list A :=
  match l with
  | [] => []
  | x :: l' => insert_at (hd 0%nat places) x (arrive (tl places) l')
  end.

(** [as_completed(ftr)]: every future once, in the order of completion. *)
Definition as_completed (w : env) (fs : list future) : list future :=
  arrive (schedule w) fs.

Record state : Type := State {
  files : gmap string (list byte);
  log : list event
}.

(** ** The monad of the effectful statements *)

Definition M (A : Type) : Type := state → (exn + A) * state.

Definition ret {A} (a : A) : M A := λ st, (inr a, st).

Definition raise {A} (e : exn) : M A := λ st, (inl e, st).

Definition bind {A B} (m : M A) (k : A → M B) : M B :=
  λ st, match m st with
        | (inr a, st') => k a st'
        | (inl e, st') => (inl e, st')
        end.

Declare Scope py_scope.
Delimit Scope py_scope with py.
Notation "x <~ m ;; k" := (bind m (λ x, k))
  (at level 100, m at next level, right associativity) : py_scope.
Notation "m ;;; k" := (bind m (λ _, k))
  (at level 100, right associativity) : py_scope.
Local Open Scope py_scope.

Definition emit (ev : event) : M unit :=
  λ st, (inr tt, State (files st) (log st ++ [ev])).

Definition print (text : string) : M unit := emit (EvPrint text).

Definition exit {A} (code : Z) : M A := raise (SystemExit code).

Definition of_result {A} (r : exn + A) : M A :=
  match r with inl e => raise e | inr a => ret a end.

Definition isfile (path : string) : M bool :=
  λ st, (inr (bool_decide (is_Some (files st !! path))), st).

(** [cnn.request(method, path, headers); cnn.getresponse()] *)
Definition request (method : string) (range : option range_header)
    (r : exn + response) : M response :=
  emit (EvRequest method range) ;;; of_result r.

(** [with open(path, 'wb') as f: pass] *)
Definition open_wb (w : env) (path : string) : M unit :=
  λ st, match open_error w (files st) path with
        | Some e => (inl e, st)
        | None => (inr tt, State (<[path := []]> (files st)) (log st ++ [EvOpenWb path]))
        end.

(** [with open(path, 'ab') as f: f.write(data)].  Whether the statement
    raises is settled when the file is opened, and then nothing is written;
    a write or a close that gives out half-way is the matter of [Disk]
    below. *)
Definition write_ab (w : env) (path : string) (data : list byte) : M unit :=
  λ st, match open_error w (files st) path with
        | Some e => (inl e, st)
        | None =>
            (inr tt,
             State (<[path := default [] (files st !! path) ++ data]> (files st))
                   (log st ++ [EvWriteAb path data]))
        end.

Fixpoint for_each {A} (l : list A) (f : A → M unit) : M unit :=
  match l with
  | [] => ret tt
  | x :: l' => f x ;;; for_each l' f
  end.

(** ** The program *)

Record url_parts : Type := UrlParts { netloc : string; path : string }.

Section Program.

Variable w : env.

Definition get_head_resp : M response := request "HEAD" None (head w).

Definition get_size : M Z :=
  resp <~ get_head_resp ;;
  if decide (status resp ≠ 200)
  then print "File doesn't exist on server" ;;; exit 1
  else match content_length resp with
       | None => raise TypeError
       | Some s => match Py.int s with
                   | None => raise ValueError
                   | Some n => ret n
                   end
       end.

(** The header of the probe is [f'bytes={0-1}']. *)
Definition probe_range : range_header := RangeExpr (0 - 1).

Definition is_range_supported : M bool :=
  resp <~ request "GET" (Some probe_range) (get w probe_range) ;;
  ret (bool_decide (status resp = 206)).

(** What [get_chunk] hands back for a tuple: [(filename, content)], or
    the exception of the request. *)
Definition chunk_result (a : chunk_arg) : future :=
  match get w (RangeFromTo (arg_start a) (arg_end a)) with
  | inl e => inl e
  | inr resp => inr (arg_filename a, body resp)
  end.

Definition chunk_events (a : chunk_arg) : list event :=
  [EvPrint "."; EvRequest "GET" (Some (RangeFromTo (arg_start a) (arg_end a)))].

(** The call of [get_chunk] inside a worker: its effects go to the log,
    its outcome goes into the future and raises nothing here. *)
Definition get_chunk (a : chunk_arg) : M future :=
  print "." ;;;
  emit (EvRequest "GET" (Some (RangeFromTo (arg_start a) (arg_end a)))) ;;;
  ret (chunk_result a).

(** [pool.submit] for every element, in the order of the list.  With more
    than one worker the requests may go out in another order; no
    statement below depends on the order among them. *)
Fixpoint submit_all (l : list chunk_arg) : M (list future) :=
  match l with
  | [] => ret []
  | a :: l' => f <~ get_chunk a ;; fs <~ submit_all l' ;; ret (f :: fs)
  end.

(** [for f in as_completed(ftr): results.append(f.result())]: the first
    future that holds an exception raises it. *)
Fixpoint collect (fs : list future) (results : list (Z * list byte))
    : exn + list (Z * list byte) :=
  match fs with
  | [] => inr results
  | inl e :: _ => inl e
  | inr r :: fs' => collect fs' (results ++ [r])
  end.

Definition write_chunks (chunk_size max_chunks dop : Z) : M (list (Z * list byte)) :=
  size <~ get_size ;;
  match chunk_args size chunk_size max_chunks with
  | None => raise ValueError
  | Some args =>
      if decide (dop <= 0) then raise ValueError
      else ftr <~ submit_all args ;; of_result (collect (as_completed w ftr) [])
  end.

(** [path.split('/')[-1]] *)
Fixpoint last_part (s cur : string) : string :=
  match s with
  | EmptyString => cur
  | String c s' =>
      if Ascii.eqb c "/" then last_part s' EmptyString
      else last_part s' (cur +:+ String c EmptyString)
  end.

(** [filename or urlParts.path.split('/')[-1]] *)
Definition resolve (filename : option string) (urlParts : url_parts) : string :=
  match filename with
  | Some (String c s) => String c s
  | _ => last_part (path urlParts) EmptyString
  end.

Definition mget (urlParts : url_parts) (chunk_size : Z) (filename : option string)
    (max_chunks : Z) (force : bool) (dop : Z) : M unit :=
  let filename := resolve filename urlParts in
  there <~ (if negb force then isfile filename else ret false) ;;
  if there
  then print (filename +:+ " already exists") ;;; exit 1
  else
    ok <~ is_range_supported ;;
    if negb ok
    then print "Server does not support Range header" ;;; exit 1
    else
      parts <~ write_chunks chunk_size max_chunks dop ;;
      open_wb w filename ;;;
      for_each (Py.sorted parts) (λ p, write_ab w filename p.2) ;;;
      print "done.".

End Program.

(** ** Notions used in the statements *)

(** Ceiling of a quotient of positive integers, as the specification
    writes it. *)
Definition ceil_div (a b : Z) : Z := (a + b - 1) `div` b.

Definition head_request : event := EvRequest "HEAD" None.
Definition probe_request : event := EvRequest "GET" (Some (RangeExpr (-1))).

Definition is_disk_event (ev : event) : bool :=
  match ev with
  | EvOpenWb _ | EvWriteAb _ _ => true
  | _ => false
  end.

Definition is_request (ev : event) : bool :=
  match ev with
  | EvRequest _ _ => true
  | _ => false
  end.

(** The check [not force and isfile(filename)] of [mget] lets the run go
    on. *)
Definition may_write (force : bool) (filename : string) (st : state) : Prop :=
  force = true ∨ files st !! filename = None.

(** The log once both probes are through and every worker is done. *)
Definition pool_log (st : state) (args : list chunk_arg) : list event :=
  log st ++ probe_request :: head_request :: (args ≫= chunk_events).

(** A future that holds an exception. *)
Definition failed (f : future) : bool :=
  match f with
  | inl _ => true
  | inr _ => false
  end.

(** The order of the two probes as the specification has it: the range
    probe comes only after the size probe. *)
Definition size_probe_first (t : list event) : Prop :=
  ∀ j : nat, t !! j = Some probe_request →
    ∃ i : nat, (i < j)%nat ∧ t !! i = Some head_request.

(** A computation only ever adds to the log, and what it adds is never the
    request of the range probe. *)
Definition probes_not {A} (m : M A) : Prop :=
  ∀ st, ∃ evs, log (m st).2 = log st ++ evs
               ∧ Forall (λ ev, ev ≠ probe_request) evs.







(** The chunk of [source] that starts at byte [key], and the result that
    carries it. *)
Definition piece (source : list byte) (chunk_size key : Z) : list byte :=
  take (Z.to_nat chunk_size) (drop (Z.to_nat key) source).

Definition part_of (source : list byte) (chunk_size key : Z) : Z * list byte :=
  (key, piece source chunk_size key).

(** The server answers every request for a range that starts inside the
    file with the bytes of [source] from [first] up to and including
    [last], or up to the end of the file when [last] lies beyond it. *)
Definition honours_ranges (w : env) (source : list byte) : Prop :=
  ∀ first last, 0 <= first < Z.of_nat (length source) → first <= last →
    ∃ resp, get w (RangeFromTo first last) = inr resp
            ∧ body resp = Py.slice source first (last + 1).

(** ** Worlds for the examples *)

Definition demo_source : list byte :=
  [x01; x02; x03; x04; x05; x06; x07; x08; x09; x0a].

(** A server that honours ranges, over a source of [length source] bytes
    whose length header is [len]; up to four futures arrive in reverse. *)
Definition range_server (source : list byte) (len : string) : env :=
  Env (inr (Response 200 (Some len) []))
      (λ h, match h with
            | RangeExpr _ => inr (Response 206 None (drop (length source - 1) source))
            | RangeFromTo first last =>
                inr (Response 206 None (Py.slice source first (last + 1)))
            end)
      (λ _ _, None)
      [3; 2; 1; 0]%nat.

Definition demo_world : env := range_server demo_source "10".

(** The same server, dropping the connection of the chunk that starts at
    byte 3 and of the one that starts at byte 6. *)
Definition flaky_world : env :=
  Env (head demo_world)
      (λ h, match h with
            | RangeFromTo 3 _ => inl (OSError "reset at 3")
            | RangeFromTo 6 _ => inl (OSError "reset at 6")
            | _ => get demo_world h
            end)
      (open_error demo_world)
      (schedule demo_world).

(** A server that answers the probe with the whole body. *)
Definition plain_world : env :=
  Env (head demo_world) (λ _, inr (Response 200 (Some "10") demo_source))
      (open_error demo_world) (schedule demo_world).

(** A server whose file is empty. *)
Definition empty_world : env := range_server [] "0".

Definition demo_url : url_parts := UrlParts "example.org" "/pub/data.bin".

Definition fresh : state := State ∅ [].
Definition taken : state := State {[ "data.bin" := [x2a] ]} [].


(** A server without the file: the HEAD request is answered with 404. *)
Definition missing_world : env :=
  Env (inr (Response 404 None [])) (get demo_world)
      (open_error demo_world) (schedule demo_world).

(** A server that supports ranges on the probe but answers every chunk
    request with the whole file. *)
Definition careless_world : env :=
  Env (head demo_world)
      (λ h, match h with
            | RangeExpr _ => get demo_world h
            | RangeFromTo _ _ => inr (Response 200 (Some "10") demo_source)
            end)
      (open_error demo_world) (schedule demo_world).

(** ** Notions used in the further properties *)

(** A computation that leaves the files alone and logs no disk event. *)
Definition network_only {A} (m : M A) : Prop :=
  ∀ st, files (m st).2 = files st
        ∧ ∃ evs, log (m st).2 = log st ++ evs
                 ∧ Forall (λ ev, is_disk_event ev = false) evs.

(** A computation that issues no request, and that has changed no file
    when it has logged nothing. *)
Definition offline {A} (m : M A) : Prop :=
  ∀ st, ∃ evs, log (m st).2 = log st ++ evs
               ∧ Forall (λ ev, is_request ev = false) evs
               ∧ (evs = [] → files (m st).2 = files st).

(** A computation whose dealings with the network all come before its
    dealings with the disk. *)
Definition network_then_disk {A} (m : M A) : Prop :=
  ∀ st, ∃ net disk,
    log (m st).2 = log st ++ net ++ disk
    ∧ Forall (λ ev, is_disk_event ev = false) net
    ∧ Forall (λ ev, is_request ev = false) disk
    ∧ (disk = [] → files (m st).2 = files st).

(** A computation that changes no file but [path]. *)
Definition touches_only {A} (path : string) (m : M A) : Prop :=
  ∀ st other, other ≠ path → files (m st).2 !! other = files st !! other.

(** The body of the response to the request of a planned tuple, empty when
    the request raises. *)
Definition chunk_body (w : env) (a : chunk_arg) : list byte :=
  match get w (RangeFromTo (arg_start a) (arg_end a)) with
  | inl _ => []
  | inr resp => body resp
  end.

(** A text without any slash. *)
Definition no_slash (s : string) : Prop :=
  Forall (λ c, c ≠ "/"%char) (list_ascii_of_string s).

(** ** The command line

    The arguments of the command line are Unicode text in the script, and
    texts of bytes here.  The two agree on a command line written in ASCII:
    there a character is a byte, [Getopt] takes the options apart as
    [getopt] does, and [Py.int] is [int].  Beyond ASCII they part, as
    [int] reads the digits and the white space of every script; the
    statements on the values of the options are therefore made for the
    command lines that [ascii_text] admits. *)

Definition ascii_char (c : ascii) : bool := (N_of_ascii c <? 128)%N.

Definition ascii_text (s : string) : Prop :=
  forallb ascii_char (list_ascii_of_string s) = true.

(** [getopt.getopt(args, shortopts)] of the standard library, without long
    options.  [inl msg] stands for [GetoptError(msg)]. *)
Module Getopt.

(** [short_has_arg(opt, shortopts)]: whether the option takes a value;
    [None] when the option is not known. *)
Fixpoint short_has_arg (opt : ascii) (shortopts : string) : option bool :=
  match shortopts with
  | EmptyString => None
  | String c rest =>
      if Ascii.eqb opt c && negb (Ascii.eqb c ":")
      then Some (String.prefix ":" rest)
      else short_has_arg opt rest
  end.

Definition flag (opt : ascii) : string := String "-" (String opt EmptyString).

(** The options held by one argument [-xyz...], given without its dash.
    The second component names the option, if any, that stands last and
    takes its value from the argument that follows. *)
Fixpoint do_shorts (optstring shortopts : string)
    : string + (list (string * string) * option string) :=
  match optstring with
  | EmptyString => inr ([], None)
  | String opt rest =>
      match short_has_arg opt shortopts with
      | None => inl ("option " +:+ flag opt +:+ " not recognized")
      | Some true =>
          match rest with
          | EmptyString => inr ([], Some (flag opt))
          | _ => inr ([(flag opt, rest)], None)
          end
      | Some false =>
          match do_shorts rest shortopts with
          | inl msg => inl msg
          | inr (opts, pending) => inr ((flag opt, EmptyString) :: opts, pending)
          end
      end
  end.

(** The name of a long option: the text up to the first [=]. *)
Fixpoint before_eq (s : string) : string :=
  match s with
  | EmptyString => EmptyString
  | String c rest => if Ascii.eqb c "=" then EmptyString else String c (before_eq rest)
  end.

(** Options are read up to the first argument that is not one: an argument
    that does not start with a dash, or the lone dash, or what follows
    [--]. *)
Fixpoint getopt (args : list string) (shortopts : string)
    : string + (list (string * string) * list string) :=
  match args with
  | [] => inr ([], [])
  | a :: rest =>
      match a with
      | String "-" (String c a') =>
          if Ascii.eqb c "-"
          then match a' with
               | EmptyString => inr ([], rest)
               | _ => inl ("option --" +:+ before_eq a' +:+ " not recognized")
               end
          else match do_shorts (String c a') shortopts with
               | inl msg => inl msg
               | inr (opts, None) =>
                   match getopt rest shortopts with
                   | inl msg => inl msg
                   | inr (opts', args') => inr (opts ++ opts', args')
                   end
               | inr (opts, Some o) =>
                   match rest with
                   | [] => inl ("option " +:+ o +:+ " requires argument")
                   | v :: rest' =>
                       match getopt rest' shortopts with
                       | inl msg => inl msg
                       | inr (opts', args') => inr (opts ++ (o, v) :: opts', args')
                       end
                   end
               end
      | _ => inr ([], args)
      end
  end.

End Getopt.

Definition CHUNK_SIZE : Z := 1048576.
Definition MAX_CHUNKS : Z := 4.
Definition DOP : Z := 1.

(** The arguments of the call of [mget] at the end of the script. *)
Record settings : Type := Settings {
  s_url : string;
  s_chunk_size : Z;
  s_filename : option string;
  s_max_chunks : Z;
  s_force : bool;
  s_dop : Z
}.

(** [__doc__.format(argv[0], CHUNK_SIZE, MAX_CHUNKS, DOP)] *)
Definition usage (prog : string) : string :=
  "
Download a file in parts over http.

Usage: " +:+ prog +:+ " [options] url

-o <string>
    Write file contents to <string> instead of the file's actual name

-c <integer>
    Use <integer> bytes for the chunk size (default is " +:+ pretty CHUNK_SIZE +:+ ")

-m <integer>
    Download <integer> chunks (default is " +:+ pretty MAX_CHUNKS +:+ ")

-f
    Force writing file even if it exists

-p <integer>
    Use <integer> concurrent connections (default is " +:+ pretty DOP +:+ ")
".

Section Main.

(** [urlparse] of the standard library, and [repr] on text, which [int]
    uses in the message of its [ValueError]. *)
Variable w : env.
Variable urlparse : string → url_parts.
Variable repr : string → string.

(** [int(a)] inside the [try], for [a] in ASCII: [inl] holds the text of
    the exception. *)
Definition int_arg (a : string) : string + Z :=
  match Py.int a with
  | Some n => inr n
  | None => inl ("invalid literal for int() with base 10: " +:+ repr a)
  end.

(** One turn of the loop [for o, a in opts]. *)
Definition set_option (s : settings) (oa : string * string) : string + settings :=
  let '(o, a) := oa in
  if String.eqb o "-o"
  then inr (Settings (s_url s) (s_chunk_size s) (Some a) (s_max_chunks s) (s_force s) (s_dop s))
  else if String.eqb o "-c"
  then match int_arg a with
       | inl msg => inl msg
       | inr n => inr (Settings (s_url s) n (s_filename s) (s_max_chunks s) (s_force s) (s_dop s))
       end
  else if String.eqb o "-m"
  then match int_arg a with
       | inl msg => inl msg
       | inr n => inr (Settings (s_url s) (s_chunk_size s) (s_filename s) n (s_force s) (s_dop s))
       end
  else if String.eqb o "-f"
  then inr (Settings (s_url s) (s_chunk_size s) (s_filename s) (s_max_chunks s) true (s_dop s))
  else if String.eqb o "-p"
  then match int_arg a with
       | inl msg => inl msg
       | inr n => inr (Settings (s_url s) (s_chunk_size s) (s_filename s) (s_max_chunks s) (s_force s) n)
       end
  else inr s.

Fixpoint set_options (s : settings) (opts : list (string * string)) : string + settings :=
  match opts with
  | [] => inr s
  | oa :: opts' =>
      match set_option s oa with
      | inl msg => inl msg
      | inr s' => set_options s' opts'
      end
  end.

(** The body of the [try]; [inl msg] stands for an exception [e] with
    [str(e) = msg]. *)
Definition parse (args : list string) : string + settings :=
  match Getopt.getopt args "o:p:c:m:f" with
  | inl msg => inl msg
  | inr (opts, [u]) => set_options (Settings u CHUNK_SIZE None MAX_CHUNKS false 1) opts
  | inr (opts, _) => inl "Must provide url"
  end.

(** The script run as a program, with [argv = prog :: args]. *)
Definition main (prog : string) (args : list string) : M unit :=
  match parse args with
  | inl msg => print msg ;;; print (usage prog) ;;; exit 1
  | inr s =>
      mget w (urlparse (s_url s)) (s_chunk_size s) (s_filename s) (s_max_chunks s) (s_force s) (s_dop s)
  end.

End Main.

(** The value given last for an option, if it was given. *)
Definition last_value (o : string) (opts : list (string * string)) : option string :=
  last (snd <$> filter (λ oa, oa.1 = o) opts).


(** ** The connections

    The three functions that talk to the server, at the grain of the calls
    they make on their connection.  Which call raises is up to the world:
    [fails c] is the exception of the call [c], if it raises.  The state is
    whether the local variable [cnn] is bound, and the calls made so far. *)
Module Conn.

Inductive call : Type :=
  | GetCnn
  | CnnRequest (method : string) (range : option range_header)
  | GetResponse
  | Read
  | Close
  | Dot.

(** An exception of the world, or the one the interpreter raises when a
    local variable is read before it is bound. *)
Inductive error : Type :=
  | Raised (e : exn)
  | UnboundLocalError.

Definition C (A : Type) : Type := bool * list call → (error + A) * (bool * list call).

Definition ret {A} (a : A) : C A := λ st, (inr a, st).

Definition bind {A B} (m : C A) (k : A → C B) : C B :=
  λ st, match m st with
        | (inr a, st') => k a st'
        | (inl e, st') => (inl e, st')
        end.

(** [try: body finally: fin]: [fin] runs on every way out of [body], and an
    exception of [fin] takes the place of the outcome of [body]. *)
Definition try_finally {A} (body : C A) (fin : C unit) : C A :=
  λ st, match body st with
        | (r, st') =>
            match fin st' with
            | (inl e, st'') => (inl e, st'')
            | (inr _, st'') => (r, st'')
            end
        end.

Section Calls.

Variable fails : call → option exn.
Variable resp : response.

Definition do (c : call) : C unit :=
  λ '(bound, calls),
    match fails c with
    | Some e => (inl (Raised e), (bound, calls ++ [c]))
    | None => (inr tt, (bound, calls ++ [c]))
    end.

(** [cnn = get_cnn(urlParts.netloc)] *)
Definition get_cnn : C unit :=
  bind (do GetCnn) (λ _ '(_, calls), (inr tt, (true, calls))).

(** [cnn.close()] *)
Definition close : C unit :=
  λ '(bound, calls),
    if bound then do Close (bound, calls)
    else (inl UnboundLocalError, (bound, calls)).

(** [print('.', end=''); stdout.flush()] *)
Definition dot : C unit := λ '(bound, calls), (inr tt, (bound, calls ++ [Dot])).

Definition get_head_resp : C response :=
  try_finally
    (bind get_cnn (λ _,
     bind (do (CnnRequest "HEAD" None)) (λ _,
     bind (do GetResponse) (λ _,
     bind (do Read) (λ _,
     ret resp)))))
    close.

Definition is_range_supported : C bool :=
  bind get_cnn (λ _,
  bind (do (CnnRequest "GET" (Some (RangeExpr (0 - 1))))) (λ _,
  bind (do GetResponse) (λ _,
  ret (bool_decide (status resp = 206))))).

Definition get_chunk (a : chunk_arg) : C (Z * list byte) :=
  bind dot (λ _,
  try_finally
    (bind get_cnn (λ _,
     bind (do (CnnRequest "GET" (Some (RangeFromTo (arg_start a) (arg_end a))))) (λ _,
     bind (do GetResponse) (λ _,
     bind (do Read) (λ _,
     ret (arg_filename a, body resp))))))
    close).

End Calls.

(** The state in which a function is entered. *)
Definition entry : bool * list call := (false, []).

(** A world in which only the reading of the body raises. *)
Definition read_fails (c : call) : option exn :=
  match c with
  | Read => Some (OSError "reset")
  | _ => None
  end.

(** A world in which no connection can be made. *)
Definition no_connection (c : call) : option exn :=
  match c with
  | GetCnn => Some (OSError "invalid URL")
  | _ => None
  end.

End Conn.

(** ** The disk

    The assembly at the end of [mget], at the grain of what can go wrong in
    one [with open(...)] statement: the opening raises and the file is as
    it was, or the writing or the closing raises after some of the bytes
    have reached the file.  The state is the content of the destination,
    [None] when there is no such file.  [faults i] is what befalls the
    [i]-th statement, the one that creates the file being number 0. *)
Module Disk.

Inductive fault : Type :=
  | Fine
  | AtOpen (e : exn)
  | AtWrite (e : exn) (written : nat).

(** [with open(filename, 'wb') as f: pass] *)
Definition with_wb (f : fault) (content : option (list byte))
    : option exn * option (list byte) :=
  match f with
  | Fine => (None, Some [])
  | AtOpen e => (Some e, content)
  | AtWrite e _ => (Some e, Some [])
  end.

(** [with open(filename, 'ab') as f: f.write(data)] *)
Definition with_ab (f : fault) (data : list byte) (content : option (list byte))
    : option exn * option (list byte) :=
  match f with
  | Fine => (None, Some (default [] content ++ data))
  | AtOpen e => (Some e, content)
  | AtWrite e written => (Some e, Some (default [] content ++ take written data))
  end.

(** [for i, part in parts: with open(filename, 'ab') as f: f.write(part)] *)
Fixpoint append_parts (faults : nat → fault) (i : nat) (parts : list (Z * list byte))
    (content : option (list byte)) : option exn * option (list byte) :=
  match parts with
  | [] => (None, content)
  | p :: parts' =>
      match with_ab (faults i) p.2 content with
      | (Some e, content') => (Some e, content')
      | (None, content') => append_parts faults (S i) parts' content'
      end
  end.

(** Lines 131 to 135 of [mget]. *)
Definition assemble (faults : nat → fault) (parts : list (Z * list byte))
    (content : option (list byte)) : option exn * option (list byte) :=
  match with_wb (faults 0%nat) content with
  | (Some e, content') => (Some e, content')
  | (None, content') => append_parts faults 1 (Py.sorted parts) content'
  end.

(** A disk that gives out while the third part is written, one byte of it
    having reached the file. *)
Definition short_of_space (i : nat) : fault :=
  match i with
  | 3%nat => AtWrite (OSError "no space left") 1
  | _ => Fine
  end.

End Disk.

(** * Properties *)

(** ** The chunk plan *)

Section PlanFacts.

Variables size chunk_size max_chunks : Z.
Hypothesis Hstep : 0 < chunk_size.

Abbreviation ms := (max_size size chunk_size max_chunks).
Abbreviation offsets_len := (offsets_len size chunk_size max_chunks).

Lemma range_offsets :
  Py.range 0 ms chunk_size
  = Some ((λ k : nat, Z.of_nat k * chunk_size) <$> seq 0 offsets_len).
Proof.
  unfold Py.range. destruct (decide (chunk_size = 0)) as [->|_]; [lia|].
  reflexivity.
Qed.

Lemma chunk_args_eq :
  chunk_args size chunk_size max_chunks
  = Some (Py.slice_to
            ((λ k : nat, get_chunk_args size chunk_size (Z.of_nat k * chunk_size))
               <$> seq 0 offsets_len) max_chunks).
Proof.
  unfold chunk_args. rewrite range_offsets. simpl.
  by rewrite <- list_fmap_compose.
Qed.

Lemma offsets_len_pos : 0 < ms → Z.of_nat offsets_len = (ms - 1) `div` chunk_size + 1.
Proof.
  intros Hms. unfold offsets_len, Py.range_len.
  rewrite decide_True by lia. rewrite decide_True by lia.
  replace (ms - 0 - 1) with (ms - 1) by lia.
  assert (0 <= (ms - 1) `div` chunk_size) by (apply Z.div_pos; lia).
  lia.
Qed.

Lemma offsets_len_nonpos : ms <= 0 → offsets_len = 0%nat.
Proof.
  intros Hms. unfold offsets_len, Py.range_len.
  rewrite decide_True by lia. rewrite decide_False by lia. reflexivity.
Qed.

Hypothesis Hmax : 0 < max_chunks.

(** The length of the plan: the slice keeps at most [max_chunks] offsets. *)
Lemma chunk_args_length l :
  chunk_args size chunk_size max_chunks = Some l →
  length l = (Z.to_nat max_chunks `min` offsets_len)%nat.
Proof.
  rewrite chunk_args_eq. intros [= <-].
  unfold Py.slice_to. rewrite decide_True by lia.
  by rewrite length_take, length_fmap, length_seq.
Qed.

Lemma chunk_args_lookup l (k : nat) :
  chunk_args size chunk_size max_chunks = Some l →
  (k < length l)%nat →
  l !! k = Some (get_chunk_args size chunk_size (Z.of_nat k * chunk_size)).
Proof.
  intros Hl Hk. pose proof (chunk_args_length l Hl) as Hlen.
  rewrite chunk_args_eq in Hl. injection Hl as <-.
  unfold Py.slice_to. rewrite decide_True by lia.
  rewrite lookup_take_lt by lia.
  rewrite list_lookup_fmap, lookup_seq_lt by lia. reflexivity.
Qed.

Hypothesis Hsize : 0 < size.

Lemma max_size_pos : 0 < ms.
Proof. unfold max_size. nia. Qed.

Lemma plan_count :
  Z.of_nat (Z.to_nat max_chunks `min` offsets_len)
  = ceil_div (Z.min size (chunk_size * max_chunks)) chunk_size.
Proof.
  pose proof max_size_pos as Hms.
  pose proof (offsets_len_pos Hms) as Hn. unfold ceil_div.
  destruct (decide (size <= chunk_size * max_chunks)) as [Hle|Hgt].
  - replace ms with size in Hn by (unfold max_size; lia).
    rewrite Z.min_l by lia.
    replace (size + chunk_size - 1) with (size - 1 + 1 * chunk_size) by lia.
    rewrite Z.div_add by lia.
    assert ((size - 1) `div` chunk_size < max_chunks)
      by (apply Z.div_lt_upper_bound; lia).
    lia.
  - rewrite Z.min_r by lia.
    replace (chunk_size * max_chunks + chunk_size - 1)
      with (chunk_size - 1 + max_chunks * chunk_size) by lia.
    rewrite Z.div_add, Z.div_small by lia.
    assert (max_chunks <= (ms - 1) `div` chunk_size)
      by (apply Z.div_le_lower_bound; unfold max_size; lia).
    lia.
Qed.

End PlanFacts.

(** [ceil_div] is the ceiling: the least [n] with [a <= n * b]. *)
Lemma ceil_div_spec a b :
  0 < b → (ceil_div a b - 1) * b < a <= ceil_div a b * b.
Proof.
  intros Hb. unfold ceil_div.
  pose proof (Z.div_mod (a + b - 1) b ltac:(lia)) as Hdm.
  pose proof (Z.mod_pos_bound (a + b - 1) b Hb). nia.
Qed.

(** Every planned tuple ends at [min(start + chunk_size - 1, size)], and its
    file name is its start. *)
Lemma chunk_args_end size chunk_size max_chunks l a :
  chunk_args size chunk_size max_chunks = Some l → a ∈ l →
  arg_end a = Z.min (arg_start a + chunk_size - 1) size ∧ arg_filename a = arg_start a.
Proof.
  unfold chunk_args. intros Hl Ha.
  destruct (Py.range 0 _ chunk_size) as [offs|]; simplify_eq/=.
  assert (a ∈ get_chunk_args size chunk_size <$> offs) as Hin.
  { unfold Py.slice_to in Ha. case_decide; eapply subseteq_take, Ha. }
  apply list_elem_of_fmap in Hin as (i & -> & _). done.
Qed.

(** C1, at the input the claim names: the third tuple of the plan ends at
    byte 3,000,000, one past the last byte of the file, where the claim has
    2,999,999. *)
Theorem chunk_args_three_million :
  chunk_args 3000000 1048576 4
  = Some [(0, 1048575, 0); (1048576, 2097151, 1048576); (2097152, 3000000, 2097152)].
Proof. reflexivity. Qed.

(** C2: for positive [size], [chunk_size] and [max_chunks] the plan exists,
    it has [ceil(min(size, chunk_size * max_chunks) / chunk_size)] tuples,
    and every tuple but the last spans exactly [chunk_size] bytes. *)
Theorem plan_count_and_spans size chunk_size max_chunks :
  0 < size → 0 < chunk_size → 0 < max_chunks →
  ∃ l, chunk_args size chunk_size max_chunks = Some l
     ∧ Z.of_nat (length l) = ceil_div (Z.min size (chunk_size * max_chunks)) chunk_size
     ∧ ∀ (k : nat) a, (S k < length l)%nat → l !! k = Some a →
         arg_end a - arg_start a + 1 = chunk_size.
Proof.
  intros Hsize Hstep Hmax.
  destruct (chunk_args size chunk_size max_chunks) as [l|] eqn:Hl;
    [|by rewrite chunk_args_eq in Hl].
  exists l. split; [done|].
  pose proof (chunk_args_length _ _ _ Hstep Hmax l Hl) as Hlen.
  split.
  - rewrite Hlen. by apply plan_count.
  - intros k a Hk Hka.
    rewrite (chunk_args_lookup _ _ _ Hstep Hmax l k Hl) in Hka by lia.
    injection Hka as <-. unfold arg_end, arg_start, get_chunk_args. simpl.
    pose proof (max_size_pos size chunk_size max_chunks Hstep Hmax Hsize) as Hms.
    pose proof (offsets_len_pos size chunk_size max_chunks Hstep Hms) as Hn.
    assert (Z.of_nat (S k) <= (max_size size chunk_size max_chunks - 1) `div` chunk_size)
      as Hq by lia.
    pose proof (Z.mul_div_le (max_size size chunk_size max_chunks - 1) chunk_size Hstep).
    assert (max_size size chunk_size max_chunks <= size) by (unfold max_size; lia).
    nia.
Qed.

Lemma plan_count_and_spans_witness :
  ∃ l, chunk_args 3000000 1048576 4 = Some l
     ∧ Z.of_nat (length l) = ceil_div (Z.min 3000000 (1048576 * 4)) 1048576
     ∧ ∀ (k : nat) a, (S k < length l)%nat → l !! k = Some a →
         arg_end a - arg_start a + 1 = 1048576.
Proof. apply (plan_count_and_spans 3000000 1048576 4); lia. Defined.

(** ** Running the statements *)

(** Unfolds the monad's operations in the goal. *)
Ltac run :=
  repeat (progress unfold bind, request, of_result, print, exit, emit, raise, ret, isfile);
  simpl.

Lemma bind_inr {A B} (m : M A) (k : A → M B) st a st' :
  m st = (inr a, st') → bind m k st = k a st'.
Proof. unfold bind. by intros ->. Qed.

Lemma bind_inl {A B} (m : M A) (k : A → M B) st e st' :
  m st = (inl e, st') → bind m k st = (inl e, st').
Proof. unfold bind. by intros ->. Qed.

Section Runs.

Variable w : env.

Lemma get_head_resp_run st :
  get_head_resp w st
  = (head w, State (files st) (log st ++ [head_request])).
Proof. unfold get_head_resp. run. by destruct (head w). Qed.

Lemma get_size_run st :
  get_size w st
  = match head w with
    | inl e => (inl e, State (files st) (log st ++ [head_request]))
    | inr resp =>
        if decide (status resp ≠ 200)
        then (inl (SystemExit 1),
              State (files st)
                    (log st ++ [head_request; EvPrint "File doesn't exist on server"]))
        else (match content_length resp with
              | None => inl TypeError
              | Some s => match Py.int s with
                          | None => inl ValueError
                          | Some n => inr n
                          end
              end, State (files st) (log st ++ [head_request]))
    end.
Proof.
  unfold get_size, bind. rewrite get_head_resp_run.
  destruct (head w) as [e|resp]; [done|].
  case_decide; run; [by rewrite <- app_assoc|].
  destruct (content_length resp) as [s|]; [|done]. by destruct (Py.int s).
Qed.

Lemma is_range_supported_run st :
  is_range_supported w st
  = (match get w (RangeExpr (-1)) with
     | inl e => inl e
     | inr resp => inr (bool_decide (status resp = 206))
     end, State (files st) (log st ++ [probe_request])).
Proof.
  unfold is_range_supported, probe_range. change (0 - 1) with (-1). run.
  by destruct (get w (RangeExpr (-1))).
Qed.

Lemma submit_all_run args st :
  submit_all w args st
  = (inr (chunk_result w <$> args),
     State (files st) (log st ++ (args ≫= chunk_events))).
Proof.
  revert st. induction args as [|a args IH]; intros st; simpl.
  - run. rewrite app_nil_r. by destruct st.
  - unfold get_chunk. run. rewrite IH. simpl. by rewrite <- !app_assoc.
Qed.

Lemma write_chunks_run chunk_size max_chunks dop st size args :
  (get_size w st).1 = inr size →
  chunk_args size chunk_size max_chunks = Some args →
  0 < dop →
  write_chunks w chunk_size max_chunks dop st
  = (collect (as_completed w (chunk_result w <$> args)) [],
     State (files st) (log st ++ head_request :: (args ≫= chunk_events))).
Proof.
  intros Hsize Hargs Hdop. unfold write_chunks, bind at 1.
  rewrite get_size_run in Hsize |- *.
  destruct (head w) as [e|resp]; [done|].
  case_decide; [done|]. simpl in Hsize. rewrite Hsize, Hargs.
  rewrite decide_False by lia. unfold bind. rewrite submit_all_run. simpl.
  rewrite <- app_assoc. simpl.
  by destruct (collect _ _).
Qed.

(** Appending the parts one by one to a file that exists and stays
    writable. *)
Lemma append_parts_run filename (parts : list (Z * list byte)) st content :
  (∀ fs, open_error w fs filename = None) →
  files st !! filename = Some content →
  for_each parts (λ p, write_ab w filename p.2) st
  = (inr (),
     State (<[filename := content ++ concat parts.*2]> (files st))
           (log st ++ (EvWriteAb filename <$> parts.*2))).
Proof.
  intros Hopen. revert st content.
  induction parts as [|[k data] parts IH]; intros st content Hfile; simpl.
  - run. rewrite !app_nil_r, insert_id by done. by destruct st.
  - unfold bind, write_ab at 1. rewrite Hopen, Hfile. simpl.
    erewrite IH by (simpl; apply lookup_insert_eq). simpl.
    by rewrite insert_insert_eq, <- !app_assoc.
Qed.

End Runs.

(** ** [int] on plain numerals *)















(** ** The error paths *)





(** C6: when the resolved destination is an existing file and [force] is
    off, [mget] ends with [exit(1)] after printing its message; the files
    are as before and the run has issued no request. *)
Theorem existing_destination_refused w urlParts chunk_size filename max_chunks dop st :
  is_Some (files st !! resolve filename urlParts) →
  mget w urlParts chunk_size filename max_chunks false dop st
  = (inl (SystemExit 1),
     State (files st)
           (log st ++ [EvPrint (resolve filename urlParts +:+ " already exists")])).
Proof.
  intros Hthere. unfold mget. run. by rewrite bool_decide_eq_true_2.
Qed.

Lemma existing_destination_refused_witness :
  is_Some (files taken !! resolve None demo_url)
  ∧ mget demo_world demo_url 3 None 4 false 1 taken
    = (inl (SystemExit 1), State (files taken) [EvPrint "data.bin already exists"]).
Proof.
  assert (is_Some (files taken !! resolve None demo_url)) as H by (by eexists).
  split; [exact H|].
  exact (existing_destination_refused demo_world demo_url 3 None 4 1 taken H).
Defined.

(** C5: when the range probe is answered, [is_range_supported] returns
    whether the status is 206; and when the status is not 206, a run that
    got as far as the probe ends with [exit(1)] after printing its message,
    with the files as before and nothing but the probe on the network. *)
Theorem range_unsupported_aborts w urlParts chunk_size filename max_chunks force dop st resp :
  get w (RangeExpr (-1)) = inr resp →
  (is_range_supported w st).1 = inr (bool_decide (status resp = 206))
  ∧ (status resp ≠ 206 →
     may_write force (resolve filename urlParts) st →
     mget w urlParts chunk_size filename max_chunks force dop st
     = (inl (SystemExit 1),
        State (files st)
              (log st ++ [probe_request;
                          EvPrint "Server does not support Range header"]))).
Proof.
  intros Hget. split.
  - by rewrite is_range_supported_run, Hget.
  - intros Hstatus Hmay. unfold mget.
    assert ((if negb force then isfile (resolve filename urlParts) else ret false) st
            = (inr false, st)) as Hcheck.
    { destruct Hmay as [->|Hnone]; [done|].
      destruct force; [done|]. simpl. unfold isfile.
      rewrite bool_decide_eq_false_2; [done|]. rewrite Hnone. by intros [? ?]. }
    unfold bind at 1. rewrite Hcheck. unfold bind at 1.
    rewrite is_range_supported_run, Hget, bool_decide_eq_false_2 by done.
    run. by rewrite <- app_assoc.
Qed.

Lemma range_unsupported_aborts_witness :
  get plain_world (RangeExpr (-1)) = inr (Response 200 (Some "10"%string) demo_source)
  ∧ (is_range_supported plain_world fresh).1 = inr false
  ∧ mget plain_world demo_url 3 None 4 false 1 fresh
    = (inl (SystemExit 1),
       State ∅ [probe_request; EvPrint "Server does not support Range header"]).
Proof.
  pose proof (range_unsupported_aborts plain_world demo_url 3 None 4 false 1 fresh
                (Response 200 (Some "10"%string) demo_source) eq_refl) as [Hb Hrun].
  split; [reflexivity|]. split; [exact Hb|].
  apply Hrun; [simpl; lia|]. right. reflexivity.
Defined.

(** ** Sorting *)

Section Sorting.

Context {A : Type}.
Implicit Types (lt : A → A → bool) (l : list A).

Lemma insort_perm lt x l : Py.insort lt x l ≡ₚ x :: l.
Proof.
  induction l as [|y l IH]; simpl; [done|].
  destruct (lt y x); [|done]. rewrite IH. apply Permutation_swap.
Qed.

Lemma sorted_with_perm lt l : Py.sorted_with lt l ≡ₚ l.
Proof.
  induction l as [|x l IH]; simpl; [done|].
  by rewrite insort_perm, IH.
Qed.

(** The place of [x] depends only on how [lt] compares the elements of
    the list with [x]. *)
Lemma insort_ext lt lt' x l :
  (∀ y, y ∈ l → lt y x = lt' y x) → Py.insort lt x l = Py.insort lt' x l.
Proof.
  induction l as [|y l IH]; intros Hl; simpl; [done|].
  rewrite <- (Hl y) by left.
  destruct (lt y x); [|done]. f_equal. apply IH. intros z Hz. apply Hl. by right.
Qed.

(** Two orders that agree on the elements at different positions sort
    the list the same way. *)
Lemma sorted_with_ext lt lt' l :
  (∀ (i j : nat) x y, i ≠ j → l !! i = Some x → l !! j = Some y → lt x y = lt' x y) →
  Py.sorted_with lt l = Py.sorted_with lt' l.
Proof.
  induction l as [|x l IH]; intros Hl; simpl; [done|].
  rewrite IH by (intros i j y z Hij Hy Hz; apply (Hl (S i) (S j)); auto).
  apply insort_ext. intros y Hy.
  rewrite sorted_with_perm in Hy. apply list_elem_of_lookup in Hy as [j Hj].
  by apply (Hl (S j) 0%nat).
Qed.

(** Sorting commutes with a map that carries one order to the other. *)
Lemma sorted_with_fmap {B} (g : B → A) lt (lt' : B → B → bool) (l : list B) :
  (∀ x y, lt (g x) (g y) = lt' x y) →
  Py.sorted_with lt (g <$> l) = g <$> Py.sorted_with lt' l.
Proof.
  intros Hg. induction l as [|x l IH]; [done|].
  change (Py.insort lt (g x) (Py.sorted_with lt (g <$> l))
          = g <$> Py.insort lt' x (Py.sorted_with lt' l)).
  rewrite IH. generalize (Py.sorted_with lt' l). intros s.
  induction s as [|y s IHs]; simpl; [done|].
  rewrite Hg. destruct (lt' y x); simpl; [by f_equal|done].
Qed.

End Sorting.

Lemma insort_Sorted x l : Sorted Z.le l → Sorted Z.le (Py.insort Z.ltb x l).
Proof.
  induction 1 as [|y l Hl IH Hhd]; simpl; [by repeat constructor|].
  destruct (Z.ltb_spec y x) as [Hlt|Hge].
  - constructor; [done|].
    destruct Hhd as [|z l Hyz]; simpl; [constructor; lia|].
    destruct (z <? x); constructor; lia.
  - constructor; [by constructor|]. by constructor.
Qed.

Lemma sorted_with_Sorted l : Sorted Z.le (Py.sorted_with Z.ltb l).
Proof.
  induction l as [|x l IH]; simpl; [constructor|]. by apply insort_Sorted.
Qed.

(** An increasing list is what sorting any rearrangement of it yields. *)
Lemma sorted_with_unique (l l' : list Z) :
  Sorted Z.le l → l' ≡ₚ l → Py.sorted_with Z.ltb l' = l.
Proof.
  intros Hl Hperm. apply (Sorted_unique Z.le); [apply sorted_with_Sorted|done|].
  by rewrite sorted_with_perm.
Qed.

(** With pairwise distinct keys the order on tuples never gets to the
    second components. *)
Lemma sorted_by_key_only {B} (lt2 : B → B → bool) (parts : list (Z * B)) :
  NoDup parts.*1 →
  Py.sorted_with (Py.tuple_lt lt2) parts = Py.sorted_with (λ p q, p.1 <? q.1) parts.
Proof.
  intros Hnd. apply sorted_with_ext. intros i j p q Hij Hp Hq.
  unfold Py.tuple_lt. destruct (Z.eqb_spec p.1 q.1) as [Heq|]; [|done].
  destruct Hij. eapply NoDup_lookup; [done| |].
  - rewrite list_lookup_fmap, Hp. done.
  - rewrite list_lookup_fmap, Hq. simpl. by rewrite Heq.
Qed.

(** ** The keys of a plan *)

(** A plan is the image of [0, 1, ..., n-1] under
    [k ↦ get_chunk_args (k * chunk_size)]. *)
Lemma chunk_args_shape size chunk_size max_chunks args :
  chunk_args size chunk_size max_chunks = Some args →
  chunk_size ≠ 0
  ∧ args = (λ k : nat, get_chunk_args size chunk_size (Z.of_nat k * chunk_size))
             <$> seq 0 (length args).
Proof.
  unfold chunk_args, Py.range. intros Hargs.
  destruct (decide (chunk_size = 0)) as [|Hne]; [done|]. split; [done|].
  simpl in Hargs. injection Hargs as <-. rewrite <- list_fmap_compose.
  assert (∃ m : nat, ∀ l : list chunk_arg, Py.slice_to l max_chunks = take m l ∨
            Py.slice_to l max_chunks = take (length l - m) l) as [m Hm].
  { unfold Py.slice_to. destruct (decide (0 <= max_chunks)); eauto. }
  set (f := get_chunk_args size chunk_size ∘ _).
  set (n := Z.to_nat _).
  assert (∀ j : nat, take j (f <$> seq 0 n)
                     = (λ k : nat, get_chunk_args size chunk_size (Z.of_nat k * chunk_size))
                         <$> seq 0 (length (take j (f <$> seq 0 n)))) as Htake.
  { intros j. rewrite <- fmap_take, take_seq, length_fmap, length_seq. done. }
  destruct (Hm (f <$> seq 0 n)) as [-> | ->]; apply Htake.
Qed.

Lemma chunk_args_keys size chunk_size max_chunks args :
  chunk_args size chunk_size max_chunks = Some args →
  arg_filename <$> args = (λ k : nat, Z.of_nat k * chunk_size) <$> seq 0 (length args).
Proof.
  intros [_ Heq]%chunk_args_shape. rewrite Heq at 1.
  by rewrite <- list_fmap_compose.
Qed.

Lemma multiples_NoDup (c : Z) (n : nat) :
  c ≠ 0 → NoDup ((λ k : nat, Z.of_nat k * c) <$> seq 0 n).
Proof.
  intros Hc. apply NoDup_fmap_2_strong; [|apply NoDup_seq].
  intros x y _ _ Hxy. nia.
Qed.

Lemma multiples_Sorted (c : Z) (n : nat) :
  0 < c → Sorted Z.le ((λ k : nat, Z.of_nat k * c) <$> seq 0 n).
Proof.
  intros Hc. generalize 0%nat. induction n as [|n IH]; intros j; simpl.
  - constructor.
  - constructor; [apply IH|]. destruct n; simpl; constructor. nia.
Qed.

(** C10: the keys of a plan are the multiples [0, chunk_size,
    2 * chunk_size, ...] of the chunk size, one per position, hence pairwise
    distinct; and for chunk results carrying these keys, in any order, the
    order on tuples sorts them as the order on the keys alone does, whatever
    the comparison of the payloads would answer. *)
Theorem plan_keys_distinct size chunk_size max_chunks args :
  chunk_args size chunk_size max_chunks = Some args →
  (∀ (k : nat) a, args !! k = Some a → arg_filename a = Z.of_nat k * chunk_size)
  ∧ NoDup (arg_filename <$> args)
  ∧ ∀ parts : list (Z * list byte),
      parts.*1 ≡ₚ arg_filename <$> args →
      ∀ lt2, Py.sorted_with (Py.tuple_lt lt2) parts
             = Py.sorted_with (λ p q, p.1 <? q.1) parts.
Proof.
  intros Hargs. pose proof (chunk_args_keys _ _ _ _ Hargs) as Hkeys.
  destruct (chunk_args_shape _ _ _ _ Hargs) as [Hne _].
  assert (NoDup (arg_filename <$> args)) as Hnd
    by (rewrite Hkeys; by apply multiples_NoDup).
  split_and!; [|done|].
  - intros k a Hka.
    assert ((arg_filename <$> args) !! k = Some (arg_filename a)) as Hk
      by by rewrite list_lookup_fmap, Hka.
    rewrite Hkeys, list_lookup_fmap in Hk.
    apply lookup_lt_Some in Hka. rewrite lookup_seq_lt in Hk by done.
    by injection Hk as <-.
  - intros parts Hperm lt2. apply sorted_by_key_only. by rewrite Hperm.
Qed.

Lemma plan_keys_distinct_witness :
  let args := [(0, 1048575, 0); (1048576, 2097151, 1048576); (2097152, 3000000, 2097152)] in
  let parts := [(2097152, [x03]); (0, [x01]); (1048576, [x02])] in
  chunk_args 3000000 1048576 4 = Some args
  ∧ NoDup (arg_filename <$> args)
  ∧ Py.sorted parts = Py.sorted_with (λ p q, p.1 <? q.1) parts.
Proof.
  intros args parts. split; [reflexivity|].
  destruct (plan_keys_distinct 3000000 1048576 4 args eq_refl) as (_ & Hnd & Hsort).
  split; [exact Hnd|]. apply Hsort.
  exact (Permutation_cons_append [0; 1048576] 2097152).
Defined.

(** ** Collecting the futures *)

Lemma insert_at_perm {A} n (x : A) l : insert_at n x l ≡ₚ x :: l.
Proof.
  unfold insert_at. rewrite <- Permutation_middle. by rewrite take_drop.
Qed.

Lemma arrive_perm {A} places (l : list A) : arrive places l ≡ₚ l.
Proof.
  revert places. induction l as [|x l IH]; intros places; simpl; [done|].
  by rewrite insert_at_perm, IH.
Qed.

(** Every order of completion is the work of some schedule. *)
Lemma arrive_complete {A} (l l' : list A) :
  l' ≡ₚ l → ∃ places, arrive places l = l'.
Proof.
  revert l'. induction l as [|x l IH]; intros l' Hperm.
  - apply Permutation_nil_r in Hperm as ->. by exists [].
  - assert (x ∈ l') as (l1 & l2 & ->)%list_elem_of_split by (rewrite Hperm; left).
    rewrite <- Permutation_middle in Hperm. apply Permutation_cons_inv in Hperm.
    destruct (IH _ Hperm) as [places Hplaces].
    exists (length l1 :: places). simpl. rewrite Hplaces. unfold insert_at.
    by rewrite take_app_length, drop_app_length.
Qed.

Lemma as_completed_perm w fs : as_completed w fs ≡ₚ fs.
Proof. apply arrive_perm. Qed.

Lemma collect_ok (parts acc : list (Z * list byte)) :
  collect (inr <$> parts) acc = inr (acc ++ parts).
Proof.
  revert acc. induction parts as [|p parts IH]; intros acc; simpl.
  - by rewrite app_nil_r.
  - by rewrite IH, <- app_assoc.
Qed.

Lemma collect_first_error (pre post : list future) e acc :
  Forall (λ f, failed f = false) pre → collect (pre ++ inl e :: post) acc = inl e.
Proof.
  intros Hpre. revert acc. induction Hpre as [|[e'|r] pre Hf _ IH]; intros acc; simpl;
    [done|done|apply IH].
Qed.

Lemma first_failure (fs : list future) :
  (∃ f, f ∈ fs ∧ failed f = true) →
  ∃ pre e post, fs = pre ++ inl e :: post ∧ Forall (λ f, failed f = false) pre.
Proof.
  induction fs as [|[e|r] fs IH]; intros (f & Hin & Hf).
  - by apply elem_of_nil in Hin.
  - by exists [], e, fs.
  - apply elem_of_cons in Hin as [->|Hin]; [done|].
    destruct IH as (pre & e & post & -> & Hpre); [by exists f|].
    exists (inr r :: pre), e, post. split; [done|]. by constructor.
Qed.

(** ** Runs that get as far as the worker pool *)

Section PoolReached.

Variables (w : env) (urlParts : url_parts) (chunk_size : Z)
  (filename : option string) (max_chunks : Z) (force : bool) (dop : Z) (st : state).
Variables (probe_resp head_resp : response) (len : string) (size : Z)
  (args : list chunk_arg).

Abbreviation dest := (resolve filename urlParts).

Hypothesis Hmay : may_write force dest st.
Hypothesis Hprobe : get w (RangeExpr (-1)) = inr probe_resp.
Hypothesis H206 : status probe_resp = 206.
Hypothesis Hhead : head w = inr head_resp.
Hypothesis H200 : status head_resp = 200.
Hypothesis Hlen : content_length head_resp = Some len.
Hypothesis Hint : Py.int len = Some size.
Hypothesis Hargs : chunk_args size chunk_size max_chunks = Some args.
Hypothesis Hdop : 0 < dop.

Abbreviation pool_log := (pool_log st args).

Lemma mget_pool_run :
  mget w urlParts chunk_size filename max_chunks force dop st
  = match collect (as_completed w (chunk_result w <$> args)) [] with
    | inl e => (inl e, State (files st) pool_log)
    | inr parts =>
        (open_wb w dest ;;;
         for_each (Py.sorted parts) (λ p, write_ab w dest p.2) ;;;
         print "done.") (State (files st) pool_log)
    end.
Proof.
  unfold mget.
  assert ((if negb force then isfile dest else ret false) st = (inr false, st)) as Hcheck.
  { destruct Hmay as [->|Hnone]; [done|].
    destruct force; [done|]. simpl. unfold isfile.
    rewrite bool_decide_eq_false_2; [done|]. rewrite Hnone. by intros [? ?]. }
  unfold bind at 1. rewrite Hcheck. unfold bind at 1.
  rewrite is_range_supported_run, Hprobe, bool_decide_eq_true_2 by done. simpl.
  unfold bind at 1.
  erewrite write_chunks_run; [| |done..].
  - unfold pool_log. simpl. rewrite <- app_assoc. simpl.
    by destruct (collect _ _).
  - by rewrite get_size_run, Hhead, decide_False, Hlen, Hint by (by intros []).
Qed.

Lemma chunk_events_no_disk ev :
  ev ∈ probe_request :: head_request :: (args ≫= chunk_events) →
  is_disk_event ev = false.
Proof.
  rewrite !elem_of_cons, list_elem_of_bind.
  intros [->|[->|(a & Hev & _)]]; [done..|].
  unfold chunk_events in Hev. by apply elem_of_cons in Hev as [->|[->|[]%elem_of_nil]%elem_of_cons].
Qed.

(** C4: in a run that got as far as the worker pool, when the fetch of at
    least one planned chunk raises, [mget] ends with the exception of the
    first failed future in the order in which [as_completed] hands them
    out; the files are as before, and the run has done nothing but print
    and issue requests: no file was opened or written. *)
Theorem failed_fetch_aborts :
  (∃ a, a ∈ args ∧ failed (chunk_result w a) = true) →
  ∃ pre e post,
    as_completed w (chunk_result w <$> args) = pre ++ inl e :: post
    ∧ Forall (λ f, failed f = false) pre
    ∧ mget w urlParts chunk_size filename max_chunks force dop st
      = (inl e, State (files st) pool_log)
    ∧ ∀ ev, ev ∈ probe_request :: head_request :: (args ≫= chunk_events) →
            is_disk_event ev = false.
Proof.
  intros (a & Ha & Hfail).
  destruct (first_failure (as_completed w (chunk_result w <$> args)))
    as (pre & e & post & Heq & Hpre).
  { exists (chunk_result w a). split; [|done].
    rewrite as_completed_perm. by apply list_elem_of_fmap_2. }
  exists pre, e, post. split_and!; [done|done| |apply chunk_events_no_disk].
  by rewrite mget_pool_run, Heq, collect_first_error.
Qed.

End PoolReached.

Lemma failed_fetch_aborts_witness :
  let args := [(0, 2, 0); (3, 5, 3); (6, 8, 6); (9, 10, 9)] in
  chunk_args 10 3 4 = Some args
  ∧ ∃ pre e post,
      as_completed flaky_world (chunk_result flaky_world <$> args) = pre ++ inl e :: post
      ∧ Forall (λ f, failed f = false) pre
      ∧ mget flaky_world demo_url 3 None 4 false 1 fresh
        = (inl e, State (files fresh) (pool_log fresh args))
      ∧ ∀ ev, ev ∈ probe_request :: head_request :: (args ≫= chunk_events) →
              is_disk_event ev = false.
Proof.
  intros args. split; [reflexivity|].
  apply (failed_fetch_aborts flaky_world demo_url 3 None 4 false 1 fresh
           (Response 206 None [x0a]) (Response 200 (Some "10"%string) []) "10" 10 args).
  - right. reflexivity.
  - reflexivity.
  - reflexivity.
  - reflexivity.
  - reflexivity.
  - reflexivity.
  - reflexivity.
  - reflexivity.
  - lia.
  - exists (3, 5, 3). split; [|reflexivity]. apply elem_of_cons. right. left.
Defined.

(** The exception that ends the run of [flaky_world] is the one of the
    chunk at byte 6, which the scheduler hands out before the one at 3. *)
Example flaky_run :
  mget flaky_world demo_url 3 None 4 false 1 fresh
  = (inl (OSError "reset at 6"),
     State ∅ [probe_request; head_request;
              EvPrint "."; EvRequest "GET" (Some (RangeFromTo 0 2));
              EvPrint "."; EvRequest "GET" (Some (RangeFromTo 3 5));
              EvPrint "."; EvRequest "GET" (Some (RangeFromTo 6 8));
              EvPrint "."; EvRequest "GET" (Some (RangeFromTo 9 10))]).
Proof. reflexivity. Qed.

(** ** An empty source *)

Lemma chunk_args_empty chunk_size max_chunks :
  0 < chunk_size → chunk_args 0 chunk_size max_chunks = Some [].
Proof.
  intros Hstep. rewrite chunk_args_eq by done.
  rewrite offsets_len_nonpos; [|done|unfold max_size; lia].
  unfold Py.slice_to. simpl. case_decide; [by rewrite take_nil|done].
Qed.

(** C9: when the server supports ranges and declares a length of 0, the
    chunk size is positive, there is at least one worker and the
    destination can be opened for writing, [mget] succeeds without fetching
    any chunk, and the destination exists and is empty. *)
Theorem empty_source_empty_file w urlParts chunk_size filename max_chunks force dop st
    probe_resp head_resp len :
  may_write force (resolve filename urlParts) st →
  get w (RangeExpr (-1)) = inr probe_resp → status probe_resp = 206 →
  head w = inr head_resp → status head_resp = 200 →
  content_length head_resp = Some len → Py.int len = Some 0 →
  0 < chunk_size → 0 < dop →
  open_error w (files st) (resolve filename urlParts) = None →
  mget w urlParts chunk_size filename max_chunks force dop st
  = (inr (),
     State (<[resolve filename urlParts := []]> (files st))
           (log st ++ [probe_request; head_request;
                       EvOpenWb (resolve filename urlParts); EvPrint "done."]))
  ∧ files (mget w urlParts chunk_size filename max_chunks force dop st).2
      !! resolve filename urlParts = Some [].
Proof.
  intros Hmay Hprobe H206 Hhead H200 Hlen Hint Hstep Hdop Hopen.
  assert (mget w urlParts chunk_size filename max_chunks force dop st
          = (inr (),
             State (<[resolve filename urlParts := []]> (files st))
                   (log st ++ [probe_request; head_request;
                               EvOpenWb (resolve filename urlParts); EvPrint "done."])))
    as Hrun.
  { erewrite mget_pool_run by eauto using chunk_args_empty.
    simpl. unfold pool_log. run.
    unfold open_wb. simpl. rewrite Hopen. simpl. by rewrite <- !app_assoc. }
  split; [done|]. rewrite Hrun. simpl. apply lookup_insert_eq.
Qed.

Lemma empty_source_empty_file_witness :
  mget empty_world demo_url 3 None 4 false 1 fresh
  = (inr (),
     State (<["data.bin"%string := []]> ∅)
           [probe_request; head_request; EvOpenWb "data.bin"; EvPrint "done."])
  ∧ files (mget empty_world demo_url 3 None 4 false 1 fresh).2 !! "data.bin"%string
    = Some [].
Proof.
  apply (empty_source_empty_file empty_world demo_url 3 None 4 false 1 fresh
           (Response 206 None []) (Response 200 (Some "0"%string) []) "0").
  - right. reflexivity.
  - reflexivity.
  - reflexivity.
  - reflexivity.
  - reflexivity.
  - reflexivity.
  - reflexivity.
  - lia.
  - lia.
  - reflexivity.
Defined.

(** ** The order of the requests *)

Create HintDb probes.

Lemma probes_not_ret {A} (a : A) : probes_not (ret a).
Proof. intros st. exists []. by rewrite app_nil_r. Qed.

Lemma probes_not_raise {A} e : probes_not (@raise A e).
Proof. intros st. exists []. by rewrite app_nil_r. Qed.

Lemma probes_not_emit ev : ev ≠ probe_request → probes_not (emit ev).
Proof. intros Hev st. exists [ev]. split; [done|by constructor]. Qed.

Lemma probes_not_bind {A B} (m : M A) (k : A → M B) :
  probes_not m → (∀ a, probes_not (k a)) → probes_not (bind m k).
Proof.
  intros Hm Hk st. unfold bind. specialize (Hm st).
  destruct (m st) as [[e|a] st']; simpl in *; [done|].
  destruct Hm as (evs & Hlog & Hevs). destruct (Hk a st') as (evs' & Hlog' & Hevs').
  exists (evs ++ evs'). split; [by rewrite Hlog', Hlog, app_assoc|by apply Forall_app].
Qed.

Lemma probes_not_of_result {A} (r : exn + A) : probes_not (of_result r).
Proof. destruct r; [apply probes_not_raise|apply probes_not_ret]. Qed.

Lemma probes_not_isfile path : probes_not (isfile path).
Proof. intros st. exists []. by rewrite app_nil_r. Qed.

Lemma probes_not_open_wb w path : probes_not (open_wb w path).
Proof.
  intros st. unfold open_wb. destruct (open_error w (files st) path); simpl.
  - exists []. by rewrite app_nil_r.
  - eexists. split; [done|]. by constructor.
Qed.

Lemma probes_not_write_ab w path data : probes_not (write_ab w path data).
Proof.
  intros st. unfold write_ab. destruct (open_error w (files st) path); simpl.
  - exists []. by rewrite app_nil_r.
  - eexists. split; [done|]. by constructor.
Qed.

#[local] Hint Resolve probes_not_ret probes_not_raise probes_not_bind
  probes_not_of_result probes_not_isfile probes_not_open_wb probes_not_write_ab
  : probes.

Lemma probes_not_print text : probes_not (print text).
Proof. by apply probes_not_emit. Qed.

Lemma probes_not_for_each {A} (l : list A) (f : A → M unit) :
  (∀ x, probes_not (f x)) → probes_not (for_each l f).
Proof. intros Hf. induction l; simpl; auto with probes. Qed.

Lemma probes_not_get_size w : probes_not (get_size w).
Proof.
  unfold get_size, get_head_resp, request, exit.
  apply probes_not_bind.
  { apply probes_not_bind; [by apply probes_not_emit|auto with probes]. }
  intros resp. case_decide.
  { apply probes_not_bind; [apply probes_not_print|auto with probes]. }
  destruct (content_length resp) as [s|]; [|auto with probes].
  destruct (Py.int s); auto with probes.
Qed.

Lemma probes_not_submit_all w args : probes_not (submit_all w args).
Proof.
  induction args as [|a args IH]; simpl; [auto with probes|].
  apply probes_not_bind; [|auto with probes].
  unfold get_chunk. apply probes_not_bind; [apply probes_not_print|]. intros _.
  apply probes_not_bind; [by apply probes_not_emit|auto with probes].
Qed.

Lemma probes_not_write_chunks w chunk_size max_chunks dop :
  probes_not (write_chunks w chunk_size max_chunks dop).
Proof.
  unfold write_chunks. apply probes_not_bind; [apply probes_not_get_size|]. intros size.
  destruct (chunk_args size chunk_size max_chunks); [|auto with probes].
  case_decide; [auto with probes|].
  apply probes_not_bind; [apply probes_not_submit_all|auto with probes].
Qed.

(** A run either stops at the check of the destination, having printed
    one line, or issues the range probe first and never again. *)
Lemma mget_probe_once w urlParts chunk_size filename max_chunks force dop st :
  let st' := (mget w urlParts chunk_size filename max_chunks force dop st).2 in
  log st' = log st ++ [EvPrint (resolve filename urlParts +:+ " already exists")]
  ∨ ∃ evs, log st' = log st ++ probe_request :: evs
           ∧ Forall (λ ev, ev ≠ probe_request) evs.
Proof.
  cbv zeta. unfold mget.
  assert (∃ b, (if negb force then isfile (resolve filename urlParts) else ret false) st
               = (inr b, st)) as [b Hb] by (destruct force; by eexists).
  rewrite (bind_inr _ _ _ _ _ Hb). destruct b; [by left|right].
  pose proof (is_range_supported_run w st) as Hprobe.
  destruct (get w (RangeExpr (-1))) as [e|resp].
  { rewrite (bind_inl _ _ _ _ _ Hprobe). by exists []. }
  rewrite (bind_inr _ _ _ _ _ Hprobe).
  match goal with |- context [(if ?c then ?m1 else ?m2) ?s] =>
    assert (probes_not (if c then m1 else m2)) as Happ end.
  { destruct (bool_decide (status resp = 206)); simpl; unfold exit.
    - apply probes_not_bind; [apply probes_not_write_chunks|]. intros parts.
      apply probes_not_bind; [auto with probes|]. intros _.
      apply probes_not_bind; [|intros _; apply probes_not_print].
      apply probes_not_for_each. auto with probes.
    - apply probes_not_bind; [apply probes_not_print|auto with probes]. }
  destruct (Happ (State (files st) (log st ++ [probe_request]))) as (evs & Hevs & Hnot).
  exists evs. split; [|done]. rewrite Hevs. simpl. by rewrite <- app_assoc.
Qed.

(** C8, as the code has it: in every run the range-support check comes
    before the size probe.  Whenever a run issues a request at all, the
    first event of the run is the GET of the range probe, and the HEAD of
    the size probe, when it is issued, comes after it; the HEAD of the size
    probe never comes before the GET of the range probe. *)
Theorem range_probe_first w urlParts chunk_size filename max_chunks force dop fs :
  let t := log (mget w urlParts chunk_size filename max_chunks force dop (State fs [])).2 in
  (∀ (j : nat) ev, t !! j = Some ev → is_request ev = true →
     t !! 0%nat = Some probe_request ∧ (ev = head_request → (0 < j)%nat))
  ∧ (∀ i j : nat, t !! i = Some head_request → t !! j = Some probe_request →
       (j < i)%nat).
Proof.
  intros t. subst t.
  destruct (mget_probe_once w urlParts chunk_size filename max_chunks force dop (State fs []))
    as [Hlog|(evs & Hlog & Hnot)]; simpl in Hlog; rewrite Hlog.
  - split.
    + intros j ev Hj Hreq.
      destruct j; simpl in Hj; [by injection Hj as <-|by rewrite lookup_nil in Hj].
    + intros i j Hi _.
      destruct i; simpl in Hi; [discriminate Hi|by rewrite lookup_nil in Hi].
  - split.
    + intros j ev Hj Hreq. split; [done|]. intros ->. destruct j; [done|lia].
    + intros i j Hi Hj. destruct j as [|j].
      * destruct i; [discriminate Hi|lia].
      * simpl in Hj. rewrite Forall_forall in Hnot.
        destruct (Hnot probe_request); [|done]. by eapply list_elem_of_lookup_2.
Qed.

Lemma range_probe_first_witness :
  let t := log (mget demo_world demo_url 3 None 4 false 1 fresh).2 in
  t !! 1%nat = Some head_request ∧ is_request head_request = true
  ∧ t !! 0%nat = Some probe_request ∧ (head_request = head_request → (0 < 1)%nat)
  ∧ (0 < 1)%nat.
Proof.
  destruct (range_probe_first demo_world demo_url 3 None 4 false 1 ∅) as [Hfirst Horder].
  split; [reflexivity|]. split; [reflexivity|].
  split; [|split].
  - apply (Hfirst 1%nat head_request); reflexivity.
  - apply (Hfirst 1%nat head_request); reflexivity.
  - apply (Horder 1%nat 0%nat); reflexivity.
Defined.

(** C8, as the specification has it, fails: in the run on [demo_world] the
    range probe is the first event and the size probe the second. *)
Lemma size_probe_not_first :
  let t := log (mget demo_world demo_url 3 None 4 false 1 fresh).2 in
  t !! 0%nat = Some probe_request ∧ t !! 1%nat = Some head_request
  ∧ ¬ size_probe_first t.
Proof.
  split_and!; [reflexivity..|].
  intros Hfirst. destruct (Hfirst 0%nat eq_refl) as (i & Hi & _). lia.
Qed.

(** ** Reassembly *)

Section Reassembly.

Variable source : list byte.
Variables chunk_size max_chunks : Z.
Hypothesis Hstep : 0 < chunk_size.

Abbreviation size := (Z.of_nat (length source)).
Abbreviation piece_at := (piece source chunk_size).

(** What a server that honours ranges sends for a planned tuple. *)
Lemma slice_piece key :
  0 <= key < size →
  Py.slice source key (Z.min (key + chunk_size - 1) size + 1) = piece_at key.
Proof.
  intros Hkey. unfold Py.slice, piece.
  destruct (decide (key + chunk_size - 1 <= size)) as [Hle|Hgt].
  - f_equal. lia.
  - rewrite !take_ge; [done|rewrite length_drop; lia..].
Qed.

Lemma concat_pieces (n : nat) :
  concat ((λ k : nat, piece_at (Z.of_nat k * chunk_size)) <$> seq 0 n)
  = take (n * Z.to_nat chunk_size) source.
Proof.
  induction n as [|n IH]; [done|].
  rewrite seq_S, fmap_app, concat_app, IH. simpl. rewrite app_nil_r.
  unfold piece.
  replace (Z.to_nat (Z.of_nat n * chunk_size)) with (n * Z.to_nat chunk_size)%nat by lia.
  rewrite take_take_drop. f_equal. lia.
Qed.

Hypothesis Hmax : 0 < max_chunks.

(** The pieces of a plan make up the covered prefix. *)
Lemma covered_prefix args :
  chunk_args size chunk_size max_chunks = Some args →
  take (length args * Z.to_nat chunk_size) source
  = take (Z.to_nat (Z.min size (chunk_size * max_chunks))) source.
Proof.
  intros Hargs.
  pose proof (chunk_args_length _ _ _ Hstep Hmax _ Hargs) as Hlen.
  destruct (decide (size = 0)) as [Hzero|Hpos].
  { destruct source; [by rewrite !take_nil|done]. }
  assert (0 < size) as Hsize by lia.
  pose proof (plan_count _ _ _ Hstep Hmax Hsize) as Hcount. rewrite <- Hlen in Hcount.
  pose proof (ceil_div_spec (Z.min size (chunk_size * max_chunks)) chunk_size Hstep)
    as Hceil. rewrite <- Hcount in Hceil.
  destruct (decide (size <= chunk_size * max_chunks)) as [Hle|Hgt].
  - rewrite !take_ge; [done|lia|nia].
  - f_equal. nia.
Qed.

(** Every planned tuple starts inside the file. *)
Lemma planned_start_inside args (k : nat) :
  chunk_args size chunk_size max_chunks = Some args →
  (k < length args)%nat → 0 <= Z.of_nat k * chunk_size < size.
Proof.
  intros Hargs Hk.
  pose proof (chunk_args_length _ _ _ Hstep Hmax _ Hargs) as Hlen.
  destruct (decide (0 < max_size size chunk_size max_chunks)) as [Hms|Hms].
  - pose proof (offsets_len_pos _ _ _ Hstep Hms) as Hn.
    pose proof (Z.mul_div_le (max_size size chunk_size max_chunks - 1) chunk_size Hstep).
    assert (Z.of_nat k <= (max_size size chunk_size max_chunks - 1) `div` chunk_size)
      by lia.
    assert (max_size size chunk_size max_chunks <= size) by (unfold max_size; lia).
    nia.
  - rewrite offsets_len_nonpos in Hlen by (done || lia). lia.
Qed.

End Reassembly.

(** The futures of a plan on a server that honours ranges: every one holds
    the piece that starts at its key. *)
Lemma planned_results w source chunk_size max_chunks args :
  0 < chunk_size → 0 < max_chunks →
  honours_ranges w source →
  chunk_args (Z.of_nat (length source)) chunk_size max_chunks = Some args →
  chunk_result w <$> args
  = (inr ∘ part_of source chunk_size) <$> (arg_filename <$> args).
Proof.
  intros Hstep Hmax Hserver Hargs.
  destruct (chunk_args_shape _ _ _ _ Hargs) as [_ Hshape].
  rewrite <- list_fmap_compose. apply list_eq. intros k.
  rewrite !list_lookup_fmap.
  destruct (args !! k) as [a|] eqn:Hk; [simpl|done]. f_equal.
  pose proof (lookup_lt_Some _ _ _ Hk) as Hlt.
  pose proof (planned_start_inside source _ _ Hstep Hmax _ k Hargs Hlt) as Hin.
  rewrite Hshape, list_lookup_fmap, lookup_seq_lt in Hk by done.
  injection Hk as <-. unfold chunk_result, get_chunk_args, arg_start, arg_end,
    arg_filename, part_of. simpl.
  destruct (Hserver (Z.of_nat k * chunk_size)
              (Z.min (Z.of_nat k * chunk_size + chunk_size - 1) (Z.of_nat (length source))))
    as (resp & -> & ->); [done|lia|].
  by rewrite slice_piece.
Qed.

(** Sorting the results of a plan, in whatever order they came in, puts
    them in the order of the plan. *)
Lemma sorted_results source chunk_size (n : nat) (keys' : list Z) :
  0 < chunk_size →
  keys' ≡ₚ (λ k : nat, Z.of_nat k * chunk_size) <$> seq 0 n →
  Py.sorted (part_of source chunk_size <$> keys')
  = part_of source chunk_size <$> ((λ k : nat, Z.of_nat k * chunk_size) <$> seq 0 n).
Proof.
  intros Hstep Hperm. unfold Py.sorted.
  rewrite sorted_by_key_only.
  - rewrite (sorted_with_fmap (part_of source chunk_size) _ Z.ltb) by done.
    f_equal. apply sorted_with_unique; [by apply multiples_Sorted|done].
  - assert ((part_of source chunk_size <$> keys').*1 = keys') as ->
      by (clear Hperm; induction keys' as [|x l IH]; [done|]; by rewrite !fmap_cons, IH).
    rewrite Hperm. apply multiples_NoDup. lia.
Qed.

(** C3: on a server that honours ranges and declares the length of its
    file, with a positive chunk size and chunk count and a destination that
    can be written, [mget] succeeds whatever the order in which the futures
    complete, and leaves in the destination the first
    [min(size, chunk_size * max_chunks)] bytes of the source; all other
    files are as before.  The statement holds for every schedule of the
    world [w], so the bytes written do not depend on it. *)
Theorem reassembly_in_order w urlParts chunk_size filename max_chunks force dop st
    probe_resp head_resp len source :
  may_write force (resolve filename urlParts) st →
  get w (RangeExpr (-1)) = inr probe_resp → status probe_resp = 206 →
  head w = inr head_resp → status head_resp = 200 →
  content_length head_resp = Some len →
  Py.int len = Some (Z.of_nat (length source)) →
  0 < chunk_size → 0 < max_chunks → 0 < dop →
  honours_ranges w source →
  (∀ fs, open_error w fs (resolve filename urlParts) = None) →
  (mget w urlParts chunk_size filename max_chunks force dop st).1 = inr ()
  ∧ files (mget w urlParts chunk_size filename max_chunks force dop st).2
    = <[resolve filename urlParts :=
          take (Z.to_nat (Z.min (Z.of_nat (length source)) (chunk_size * max_chunks)))
               source]> (files st).
Proof.
  intros Hmay Hprobe H206 Hhead H200 Hlen Hint Hstep Hmax Hdop Hserver Hopen.
  destruct (chunk_args (Z.of_nat (length source)) chunk_size max_chunks)
    as [args|] eqn:Hargs; [|by rewrite chunk_args_eq in Hargs].
  pose proof (chunk_args_keys _ _ _ _ Hargs) as Hkeys.
  assert (∃ l, mget w urlParts chunk_size filename max_chunks force dop st
               = (inr (),
                  State (<[resolve filename urlParts :=
                             take (length args * Z.to_nat chunk_size) source]> (files st)) l))
    as [l Hrun].
  { eexists.
    rewrite (mget_pool_run w urlParts chunk_size filename max_chunks force dop st
               probe_resp head_resp len _ args) by done.
    pose proof (as_completed_perm w (chunk_result w <$> args)) as Hperm.
    rewrite (planned_results w source chunk_size max_chunks) in Hperm |- * by done.
    apply Permutation_map_inv in Hperm as (keys' & -> & Hperm').
    change (map (inr ∘ part_of source chunk_size) keys')
      with ((@inr exn _ ∘ part_of source chunk_size) <$> keys').
    rewrite list_fmap_compose, collect_ok. simpl.
    rewrite (sorted_results source chunk_size (length args))
      by (done || by rewrite <- Hperm', Hkeys).
    erewrite bind_inr by (unfold open_wb; rewrite Hopen; reflexivity).
    erewrite bind_inr
      by (apply append_parts_run; [done|simpl; apply lookup_insert_eq]).
    run. rewrite insert_insert_eq, <- !list_fmap_compose.
    rewrite <- concat_pieces by done. reflexivity. }
  rewrite Hrun. simpl. split; [done|].
  by rewrite (covered_prefix source chunk_size max_chunks Hstep Hmax args Hargs).
Qed.

Lemma range_server_honours source len : honours_ranges (range_server source len) source.
Proof. intros first last _ _. by eexists. Qed.

Lemma reassembly_in_order_witness :
  (mget demo_world demo_url 3 None 4 false 1 fresh).1 = inr ()
  ∧ files (mget demo_world demo_url 3 None 4 false 1 fresh).2
    = <[resolve None demo_url :=
          take (Z.to_nat (Z.min (Z.of_nat (length demo_source)) (3 * 4))) demo_source]>
        (files fresh).
Proof.
  apply (reassembly_in_order demo_world demo_url 3 None 4 false 1 fresh
           (Response 206 None [x0a]) (Response 200 (Some "10"%string) []) "10"
           demo_source).
  - right. reflexivity.
  - reflexivity.
  - reflexivity.
  - reflexivity.
  - reflexivity.
  - reflexivity.
  - reflexivity.
  - lia.
  - lia.
  - lia.
  - apply range_server_honours.
  - reflexivity.
Defined.

(** The run on [demo_world]: the futures arrive in reverse, the pieces are
    written in the order of their keys. *)
Example demo_run :
  mget demo_world demo_url 3 None 4 false 1 fresh
  = (inr (),
     State {[ "data.bin"%string := demo_source ]}
           [probe_request; head_request;
            EvPrint "."; EvRequest "GET" (Some (RangeFromTo 0 2));
            EvPrint "."; EvRequest "GET" (Some (RangeFromTo 3 5));
            EvPrint "."; EvRequest "GET" (Some (RangeFromTo 6 8));
            EvPrint "."; EvRequest "GET" (Some (RangeFromTo 9 10));
            EvOpenWb "data.bin";
            EvWriteAb "data.bin" [x01; x02; x03];
            EvWriteAb "data.bin" [x04; x05; x06];
            EvWriteAb "data.bin" [x07; x08; x09];
            EvWriteAb "data.bin" [x0a];
            EvPrint "done."]).
Proof. reflexivity. Qed.

Example demo_arrival :
  as_completed demo_world (chunk_result demo_world <$> [(0, 2, 0); (3, 5, 3); (6, 8, 6); (9, 10, 9)])
  = [inr (9, [x0a]); inr (6, [x07; x08; x09]); inr (3, [x04; x05; x06]);
     inr (0, [x01; x02; x03])].
Proof. reflexivity. Qed.

(** * Further properties of the code *)

(** ** More on the plan *)

Lemma chunk_args_none size chunk_size max_chunks :
  chunk_args size chunk_size max_chunks = None ↔ chunk_size = 0.
Proof.
  unfold chunk_args, Py.range. destruct (decide (chunk_size = 0)); simpl; split; done.
Qed.

(** Every planned tuple starts inside the file. *)
Lemma planned_start_lt size chunk_size max_chunks args (k : nat) :
  0 < chunk_size → 0 < max_chunks →
  chunk_args size chunk_size max_chunks = Some args →
  (k < length args)%nat → 0 <= Z.of_nat k * chunk_size < size.
Proof.
  intros Hstep Hmax Hargs Hk.
  pose proof (chunk_args_length _ _ _ Hstep Hmax _ Hargs) as Hlen.
  destruct (decide (0 < max_size size chunk_size max_chunks)) as [Hms|Hms].
  - pose proof (offsets_len_pos _ _ _ Hstep Hms) as Hn.
    pose proof (Z.mul_div_le (max_size size chunk_size max_chunks - 1) chunk_size Hstep).
    assert (Z.of_nat k <= (max_size size chunk_size max_chunks - 1) `div` chunk_size)
      by lia.
    assert (max_size size chunk_size max_chunks <= size) by (unfold max_size; lia).
    nia.
  - rewrite offsets_len_nonpos in Hlen by (done || lia). lia.
Qed.

(** The ranges of a plan lie side by side: the first starts at byte 0 and
    each of the others starts right after the end of the one before it,
    [chunk_size] bytes after its start. *)
Theorem plan_contiguous size chunk_size max_chunks args :
  0 < chunk_size → 0 < max_chunks →
  chunk_args size chunk_size max_chunks = Some args →
  (∀ a, args !! 0%nat = Some a → arg_start a = 0)
  ∧ ∀ (k : nat) a b, args !! k = Some a → args !! S k = Some b →
      arg_start b = arg_end a + 1 ∧ arg_start b = arg_start a + chunk_size.
Proof.
  intros Hstep Hmax Hargs. split.
  - intros a Ha.
    rewrite (chunk_args_lookup _ _ _ Hstep Hmax args 0 Hargs) in Ha
      by (by apply lookup_lt_Some in Ha).
    by injection Ha as <-.
  - intros k a b Ha Hb.
    pose proof (lookup_lt_Some _ _ _ Hb) as Hlt.
    pose proof (planned_start_lt _ _ _ _ (S k) Hstep Hmax Hargs Hlt) as Hin.
    rewrite (chunk_args_lookup _ _ _ Hstep Hmax args k Hargs) in Ha by lia.
    rewrite (chunk_args_lookup _ _ _ Hstep Hmax args (S k) Hargs) in Hb by lia.
    injection Ha as <-. injection Hb as <-.
    unfold arg_start, arg_end, get_chunk_args. simpl. lia.
Qed.

Lemma plan_contiguous_witness :
  let args := [(0, 2, 0); (3, 5, 3); (6, 8, 6); (9, 10, 9)] in
  chunk_args 10 3 4 = Some args
  ∧ (∀ a, args !! 0%nat = Some a → arg_start a = 0)
  ∧ ∀ (k : nat) a b, args !! k = Some a → args !! S k = Some b →
      arg_start b = arg_end a + 1 ∧ arg_start b = arg_start a + 3.
Proof.
  intros args. split; [reflexivity|].
  apply (plan_contiguous 10 3 4 args); [lia|lia|reflexivity].
Defined.

(** A plan has at most [max_chunks] ranges; each starts inside the file,
    holds at least one byte and at most [chunk_size]. *)
Theorem plan_bounds size chunk_size max_chunks args :
  0 < chunk_size → 0 < max_chunks →
  chunk_args size chunk_size max_chunks = Some args →
  Z.of_nat (length args) <= max_chunks
  ∧ ∀ a, a ∈ args →
      0 <= arg_start a < size ∧ arg_start a <= arg_end a < arg_start a + chunk_size.
Proof.
  intros Hstep Hmax Hargs.
  pose proof (chunk_args_length _ _ _ Hstep Hmax _ Hargs) as Hlen.
  split; [lia|]. intros a [k Hk]%list_elem_of_lookup.
  pose proof (lookup_lt_Some _ _ _ Hk) as Hlt.
  pose proof (planned_start_lt _ _ _ _ k Hstep Hmax Hargs Hlt) as Hin.
  rewrite (chunk_args_lookup _ _ _ Hstep Hmax args k Hargs) in Hk by done.
  injection Hk as <-. unfold arg_start, arg_end, get_chunk_args. simpl. lia.
Qed.

Lemma plan_bounds_witness :
  let args := [(0, 2, 0); (3, 5, 3)] in
  chunk_args 10 3 2 = Some args
  ∧ Z.of_nat (length args) <= 2
  ∧ ∀ a, a ∈ args →
      0 <= arg_start a < 10 ∧ arg_start a <= arg_end a < arg_start a + 3.
Proof.
  intros args. split; [reflexivity|].
  apply (plan_bounds 10 3 2 args); [lia|lia|reflexivity].
Defined.

(** With a positive chunk size and a chunk count that is not negative, the
    plan is empty exactly when the declared size is zero or negative, or
    the chunk count is zero. *)
Theorem plan_empty_iff size chunk_size max_chunks :
  0 < chunk_size → 0 <= max_chunks →
  chunk_args size chunk_size max_chunks = Some [] ↔ size <= 0 ∨ max_chunks = 0.
Proof.
  intros Hstep Hmax. rewrite chunk_args_eq by done.
  unfold Py.slice_to. rewrite decide_True by done.
  split.
  - intros [= Hnil]. apply (f_equal length) in Hnil.
    rewrite length_take, length_fmap, length_seq in Hnil. simpl in Hnil.
    destruct (decide (0 < max_size size chunk_size max_chunks)) as [Hms|Hms].
    + pose proof (offsets_len_pos _ _ _ Hstep Hms) as Hn.
      assert (0 <= (max_size size chunk_size max_chunks - 1) `div` chunk_size)
        by (apply Z.div_pos; lia).
      right. lia.
    + left. unfold max_size in Hms. nia.
  - intros [Hsize| ->]; [|done].
    rewrite offsets_len_nonpos; [|done|unfold max_size; lia].
    simpl. by rewrite take_nil.
Qed.

Lemma plan_empty_iff_witness :
  chunk_args (-5) 3 4 = Some [] ↔ -5 <= 0 ∨ 4 = 0.
Proof. apply (plan_empty_iff (-5) 3 4); lia. Defined.

(** ** What [write_chunks] returns *)

Lemma collect_inr (fs : list future) acc parts :
  collect fs acc = inr parts → ∃ rs, fs = inr <$> rs ∧ parts = acc ++ rs.
Proof.
  revert acc. induction fs as [|[e|r] fs IH]; intros acc Hc; simpl in Hc.
  - injection Hc as <-. exists []. by rewrite app_nil_r.
  - done.
  - destruct (IH _ Hc) as (rs & -> & ->). exists (r :: rs).
    by rewrite <- app_assoc.
Qed.

(** When [write_chunks] returns, the size probe gave a size, the plan for
    it exists, there is at least one worker, and the list returned holds
    the result of every planned fetch, once each, in the order in which
    the futures completed. *)
Theorem write_chunks_results w chunk_size max_chunks dop st parts :
  (write_chunks w chunk_size max_chunks dop st).1 = inr parts →
  ∃ size args,
    (get_size w st).1 = inr size
    ∧ chunk_args size chunk_size max_chunks = Some args
    ∧ 0 < dop
    ∧ inr <$> parts = as_completed w (chunk_result w <$> args)
    ∧ length parts = length args
    ∧ parts.*1 ≡ₚ arg_filename <$> args.
Proof.
  intros Hrun. unfold write_chunks in Hrun.
  destruct (get_size w st) as [[e|size] st1] eqn:Hsize.
  { by rewrite (bind_inl _ _ _ _ _ Hsize) in Hrun. }
  rewrite (bind_inr _ _ _ _ _ Hsize) in Hrun.
  destruct (chunk_args size chunk_size max_chunks) as [args|] eqn:Hargs; [|done].
  destruct (decide (dop <= 0)); [done|].
  rewrite (bind_inr _ _ _ _ _ (submit_all_run w args st1)) in Hrun.
  destruct (collect (as_completed w (chunk_result w <$> args)) []) as [e|parts'] eqn:Hc;
    [done|].
  simpl in Hrun. injection Hrun as ->.
  apply collect_inr in Hc as (rs & Hrs & ->). simpl.
  exists size, args. split_and!; [done|done|lia|done| |].
  - apply (f_equal length) in Hrs.
    rewrite length_fmap in Hrs. rewrite <- Hrs.
    by rewrite (Permutation_length (as_completed_perm _ _)), length_fmap.
  - pose proof (as_completed_perm w (chunk_result w <$> args)) as Hperm.
    rewrite Hrs in Hperm.
    assert (∀ (l : list chunk_arg) (rs : list (Z * list byte)),
              inr <$> rs ≡ₚ chunk_result w <$> l → rs.*1 ≡ₚ arg_filename <$> l) as Hkeys.
    { clear. intros l rs Hperm.
      assert ((λ f : future, match f with inr p => p.1 | inl _ => 0 end) <$> (inr <$> rs)
              ≡ₚ (λ f : future, match f with inr p => p.1 | inl _ => 0 end)
                   <$> (chunk_result w <$> l)) as Hmap by by rewrite Hperm.
      rewrite <- !list_fmap_compose in Hmap.
      assert (Forall (λ a, failed (chunk_result w a) = false) l) as Hok.
      { apply Forall_forall. intros a Ha.
        assert (chunk_result w a ∈ inr <$> rs) as Hin
          by (rewrite Hperm; by apply list_elem_of_fmap_2).
        apply list_elem_of_fmap in Hin as (r & -> & _). done. }
      rewrite (list_fmap_ext _ fst rs) in Hmap by done.
      rewrite (list_fmap_ext _ arg_filename l) in Hmap; [done|].
      intros i a Hia. apply list_elem_of_lookup_2 in Hia.
      rewrite Forall_forall in Hok. specialize (Hok a Hia).
      simpl. unfold chunk_result in *. by destruct (get w _). }
    by apply Hkeys.
Qed.

Lemma write_chunks_results_witness :
  ∃ size args,
    (get_size demo_world fresh).1 = inr size
    ∧ chunk_args size 3 4 = Some args
    ∧ 0 < 1
    ∧ inr <$> [(9, [x0a]); (6, [x07; x08; x09]); (3, [x04; x05; x06]); (0, [x01; x02; x03])]
      = as_completed demo_world (chunk_result demo_world <$> args)
    ∧ length [(9, [x0a]); (6, [x07; x08; x09]); (3, [x04; x05; x06]); (0, [x01; x02; x03])]
      = length args
    ∧ [(9, [x0a]); (6, [x07; x08; x09]); (3, [x04; x05; x06]); (0, [x01; x02; x03])].*1
      ≡ₚ arg_filename <$> args.
Proof.
  apply (write_chunks_results demo_world 3 4 1 fresh). reflexivity.
Defined.

(** ** Failures ahead of the pool *)

(** A chunk size of zero or a pool without workers is found out only after
    both probes have gone to the server: the run ends with [ValueError],
    no chunk is requested and no file is touched. *)
Theorem invalid_config_raises w urlParts chunk_size filename max_chunks force dop st
    probe_resp size :
  may_write force (resolve filename urlParts) st →
  get w (RangeExpr (-1)) = inr probe_resp → status probe_resp = 206 →
  (get_size w st).1 = inr size →
  chunk_size = 0 ∨ dop <= 0 →
  mget w urlParts chunk_size filename max_chunks force dop st
  = (inl ValueError, State (files st) (log st ++ [probe_request; head_request])).
Proof.
  intros Hmay Hprobe H206 Hsize Hbad. unfold mget.
  assert ((if negb force then isfile (resolve filename urlParts) else ret false) st
          = (inr false, st)) as Hcheck.
  { destruct Hmay as [->|Hnone]; [done|].
    destruct force; [done|]. simpl. unfold isfile.
    rewrite bool_decide_eq_false_2; [done|]. rewrite Hnone. by intros [? ?]. }
  rewrite (bind_inr _ _ _ _ _ Hcheck).
  pose proof (is_range_supported_run w st) as Hrange.
  rewrite Hprobe, bool_decide_eq_true_2 in Hrange by done.
  rewrite (bind_inr _ _ _ _ _ Hrange). simpl.
  apply bind_inl. unfold write_chunks.
  rewrite get_size_run in Hsize.
  pose proof (get_size_run w (State (files st) (log st ++ [probe_request]))) as Hrun.
  destruct (head w) as [e|resp]; [done|]. case_decide; [done|].
  simpl in Hsize, Hrun. rewrite Hsize in Hrun. rewrite <- app_assoc in Hrun.
  rewrite (bind_inr _ _ _ _ _ Hrun).
  destruct (chunk_args size chunk_size max_chunks) as [args|] eqn:Hargs; [|done].
  destruct Hbad as [Hzero|Hdop].
  - apply (chunk_args_none size _ max_chunks) in Hzero. congruence.
  - by rewrite decide_True.
Qed.

Lemma invalid_config_raises_witness :
  mget demo_world demo_url 0 None 4 false 1 fresh
  = (inl ValueError, State (files fresh) (log fresh ++ [probe_request; head_request])).
Proof.
  apply (invalid_config_raises demo_world demo_url 0 None 4 false 1 fresh
           (Response 206 None [x0a]) 10).
  - right. reflexivity.
  - reflexivity.
  - reflexivity.
  - reflexivity.
  - left. reflexivity.
Defined.

(** When the size probe fails, [mget] fails the same way, after the range
    probe and the HEAD request and nothing else on the network; it has
    printed at most the message of [get_size], and no file is touched. *)
Theorem size_failure_propagates w urlParts chunk_size filename max_chunks force dop st
    probe_resp e :
  may_write force (resolve filename urlParts) st →
  get w (RangeExpr (-1)) = inr probe_resp → status probe_resp = 206 →
  (get_size w st).1 = inl e →
  ∃ prints,
    mget w urlParts chunk_size filename max_chunks force dop st
    = (inl e, State (files st) (log st ++ probe_request :: head_request :: prints))
    ∧ (prints = [] ∨ prints = [EvPrint "File doesn't exist on server"]).
Proof.
  intros Hmay Hprobe H206 Hsize. unfold mget.
  assert ((if negb force then isfile (resolve filename urlParts) else ret false) st
          = (inr false, st)) as Hcheck.
  { destruct Hmay as [->|Hnone]; [done|].
    destruct force; [done|]. simpl. unfold isfile.
    rewrite bool_decide_eq_false_2; [done|]. rewrite Hnone. by intros [? ?]. }
  rewrite (bind_inr _ _ _ _ _ Hcheck).
  pose proof (is_range_supported_run w st) as Hrange.
  rewrite Hprobe, bool_decide_eq_true_2 in Hrange by done.
  rewrite (bind_inr _ _ _ _ _ Hrange). simpl.
  rewrite get_size_run in Hsize.
  pose proof (get_size_run w (State (files st) (log st ++ [probe_request]))) as Hrun.
  destruct (head w) as [e'|resp].
  - simpl in Hsize. injection Hsize as ->. exists []. split; [|by left].
    apply bind_inl. unfold write_chunks. apply bind_inl.
    rewrite Hrun. simpl. by rewrite <- app_assoc.
  - case_decide.
    + simpl in Hsize. injection Hsize as <-. eexists. split; [|by right].
      apply bind_inl. unfold write_chunks. apply bind_inl.
      rewrite Hrun. simpl. by rewrite <- app_assoc.
    + simpl in Hsize, Hrun. rewrite Hsize in Hrun. exists []. split; [|by left].
      apply bind_inl. unfold write_chunks. apply bind_inl.
      rewrite Hrun. by rewrite <- app_assoc.
Qed.

Lemma size_failure_propagates_witness :
  ∃ prints,
    mget missing_world demo_url 3 None 4 false 1 fresh
    = (inl (SystemExit 1),
       State (files fresh) (log fresh ++ probe_request :: head_request :: prints))
    ∧ (prints = [] ∨ prints = [EvPrint "File doesn't exist on server"]).
Proof.
  apply (size_failure_propagates missing_world demo_url 3 None 4 false 1 fresh
           (Response 206 None [x0a]) (SystemExit 1)).
  - right. reflexivity.
  - reflexivity.
  - reflexivity.
  - reflexivity.
Defined.

(** ** The network before the disk *)

Lemma network_only_ret {A} (a : A) : network_only (ret a).
Proof. intros st. split; [done|]. exists []. split; [by rewrite app_nil_r|done]. Qed.

Lemma network_only_raise {A} e : network_only (@raise A e).
Proof. intros st. split; [done|]. exists []. split; [by rewrite app_nil_r|done]. Qed.

Lemma network_only_emit ev : is_disk_event ev = false → network_only (emit ev).
Proof. intros Hev st. split; [done|]. exists [ev]. split; [done|by constructor]. Qed.

Lemma network_only_bind {A B} (m : M A) (k : A → M B) :
  network_only m → (∀ a, network_only (k a)) → network_only (bind m k).
Proof.
  intros Hm Hk st. unfold bind. specialize (Hm st).
  destruct (m st) as [[e|a] st']; simpl in *; [done|].
  destruct Hm as (Hfiles & evs & Hlog & Hevs).
  destruct (Hk a st') as (Hfiles' & evs' & Hlog' & Hevs').
  split; [congruence|]. exists (evs ++ evs').
  split; [by rewrite Hlog', Hlog, app_assoc|by apply Forall_app].
Qed.

Lemma network_only_of_result {A} (r : exn + A) : network_only (of_result r).
Proof. destruct r; [apply network_only_raise|apply network_only_ret]. Qed.

Lemma network_only_isfile path : network_only (isfile path).
Proof. intros st. split; [done|]. exists []. split; [by rewrite app_nil_r|done]. Qed.

Create HintDb phases.

#[local] Hint Resolve network_only_ret network_only_raise network_only_emit
  network_only_bind network_only_of_result network_only_isfile : phases.

Lemma network_only_get_size w : network_only (get_size w).
Proof.
  unfold get_size, get_head_resp, request, print, exit.
  apply network_only_bind; [auto with phases|]. intros resp.
  case_decide; [auto with phases|].
  destruct (content_length resp) as [s|]; [|auto with phases].
  destruct (Py.int s); auto with phases.
Qed.

Lemma network_only_is_range_supported w : network_only (is_range_supported w).
Proof. unfold is_range_supported, request. auto with phases. Qed.

Lemma network_only_submit_all w args : network_only (submit_all w args).
Proof.
  induction args as [|a args IH]; simpl; [auto with phases|].
  unfold get_chunk, print. auto 10 with phases.
Qed.

Lemma network_only_write_chunks w chunk_size max_chunks dop :
  network_only (write_chunks w chunk_size max_chunks dop).
Proof.
  unfold write_chunks. apply network_only_bind; [apply network_only_get_size|].
  intros size. destruct (chunk_args size chunk_size max_chunks); [|auto with phases].
  case_decide; [auto with phases|].
  apply network_only_bind; [apply network_only_submit_all|auto with phases].
Qed.

Lemma offline_ret {A} (a : A) : offline (ret a).
Proof. intros st. exists []. by rewrite app_nil_r. Qed.

Lemma offline_raise {A} e : offline (@raise A e).
Proof. intros st. exists []. by rewrite app_nil_r. Qed.

Lemma offline_emit ev : is_request ev = false → offline (emit ev).
Proof. intros Hev st. exists [ev]. split_and!; [done|by constructor|done]. Qed.

Lemma offline_bind {A B} (m : M A) (k : A → M B) :
  offline m → (∀ a, offline (k a)) → offline (bind m k).
Proof.
  intros Hm Hk st. unfold bind. specialize (Hm st).
  destruct (m st) as [[e|a] st']; simpl in *; [done|].
  destruct Hm as (evs & Hlog & Hevs & Hfiles).
  destruct (Hk a st') as (evs' & Hlog' & Hevs' & Hfiles').
  exists (evs ++ evs'). split_and!.
  - by rewrite Hlog', Hlog, app_assoc.
  - by apply Forall_app.
  - intros [-> ->]%app_eq_nil. rewrite Hfiles', Hfiles; done.
Qed.

Lemma offline_open_wb w path : offline (open_wb w path).
Proof.
  intros st. unfold open_wb. destruct (open_error w (files st) path); simpl.
  - exists []. by rewrite app_nil_r.
  - eexists. split_and!; [done|by constructor|done].
Qed.

Lemma offline_write_ab w path data : offline (write_ab w path data).
Proof.
  intros st. unfold write_ab. destruct (open_error w (files st) path); simpl.
  - exists []. by rewrite app_nil_r.
  - eexists. split_and!; [done|by constructor|done].
Qed.

#[local] Hint Resolve offline_ret offline_raise offline_emit offline_bind
  offline_open_wb offline_write_ab : phases.

Lemma offline_for_each {A} (l : list A) (f : A → M unit) :
  (∀ x, offline (f x)) → offline (for_each l f).
Proof. intros Hf. induction l; simpl; auto with phases. Qed.

Lemma network_only_then_disk {A} (m : M A) : network_only m → network_then_disk m.
Proof.
  intros Hm st. destruct (Hm st) as (Hfiles & evs & Hlog & Hevs).
  exists evs, []. by rewrite app_nil_r.
Qed.

Lemma offline_then_disk {A} (m : M A) : offline m → network_then_disk m.
Proof.
  intros Hm st. destruct (Hm st) as (evs & Hlog & Hevs & Hfiles).
  by exists [], evs.
Qed.

Lemma network_then_disk_bind {A B} (m : M A) (k : A → M B) :
  network_only m → (∀ a, network_then_disk (k a)) → network_then_disk (bind m k).
Proof.
  intros Hm Hk st. unfold bind. specialize (Hm st).
  destruct (m st) as [[e|a] st']; simpl in *.
  - destruct Hm as (Hfiles & evs & Hlog & Hevs). exists evs, [].
    by rewrite app_nil_r.
  - destruct Hm as (Hfiles & evs & Hlog & Hevs).
    destruct (Hk a st') as (net & disk & Hlog' & Hnet & Hdisk & Hfiles').
    exists (evs ++ net), disk. split_and!.
    + by rewrite Hlog', Hlog, !app_assoc.
    + by apply Forall_app.
    + done.
    + intros Hnil. rewrite Hfiles' by done. done.
Qed.

(** In every run of [mget], whatever its outcome, everything that goes to
    the network comes before anything that is done to the disk: the log of
    the run is a stretch without any opening or writing of a file, followed
    by a stretch without any request; and when the second stretch is empty
    the files are as they were. *)
Theorem network_before_disk w urlParts chunk_size filename max_chunks force dop st :
  ∃ net disk,
    log (mget w urlParts chunk_size filename max_chunks force dop st).2
    = log st ++ net ++ disk
    ∧ Forall (λ ev, is_disk_event ev = false) net
    ∧ Forall (λ ev, is_request ev = false) disk
    ∧ (disk = [] →
       files (mget w urlParts chunk_size filename max_chunks force dop st).2 = files st).
Proof.
  revert st. change (network_then_disk
                       (mget w urlParts chunk_size filename max_chunks force dop)).
  unfold mget. apply network_then_disk_bind.
  { destruct (negb force); auto with phases. }
  intros there. destruct there.
  { apply network_only_then_disk. unfold print, exit. auto with phases. }
  apply network_then_disk_bind; [apply network_only_is_range_supported|].
  intros ok. destruct (negb ok).
  { apply network_only_then_disk. unfold print, exit. auto with phases. }
  apply network_then_disk_bind; [apply network_only_write_chunks|].
  intros parts. apply offline_then_disk.
  apply offline_bind; [auto with phases|]. intros _.
  apply offline_bind; [|unfold print; auto with phases].
  apply offline_for_each. auto with phases.
Qed.

(** ** The one file that is written *)

Lemma network_only_touches {A} path (m : M A) : network_only m → touches_only path m.
Proof. intros Hm st other _. by rewrite (proj1 (Hm st)). Qed.

Lemma touches_only_bind {A B} path (m : M A) (k : A → M B) :
  touches_only path m → (∀ a, touches_only path (k a)) → touches_only path (bind m k).
Proof.
  intros Hm Hk st other Hne. unfold bind. specialize (Hm st other Hne).
  destruct (m st) as [[e|a] st']; simpl in *; [done|].
  by rewrite (Hk a st' other Hne).
Qed.

Lemma touches_only_open_wb w path : touches_only path (open_wb w path).
Proof.
  intros st other Hne. unfold open_wb.
  destruct (open_error w (files st) path); simpl; [done|].
  by rewrite lookup_insert_ne.
Qed.

Lemma touches_only_write_ab w path data : touches_only path (write_ab w path data).
Proof.
  intros st other Hne. unfold write_ab.
  destruct (open_error w (files st) path); simpl; [done|].
  by rewrite lookup_insert_ne.
Qed.

Lemma touches_only_for_each {A} path (l : list A) (f : A → M unit) :
  (∀ x, touches_only path (f x)) → touches_only path (for_each l f).
Proof.
  intros Hf. induction l as [|x l IH]; simpl.
  - by apply network_only_touches, network_only_ret.
  - by apply touches_only_bind.
Qed.

(** Whatever the outcome of a run of [mget], no file is created, changed
    or removed but the destination. *)
Theorem only_destination_touched w urlParts chunk_size filename max_chunks force dop st
    other :
  other ≠ resolve filename urlParts →
  files (mget w urlParts chunk_size filename max_chunks force dop st).2 !! other
  = files st !! other.
Proof.
  revert st other.
  change (touches_only (resolve filename urlParts)
            (mget w urlParts chunk_size filename max_chunks force dop)).
  unfold mget. apply touches_only_bind.
  { apply network_only_touches. destruct (negb force); auto with phases. }
  intros there. destruct there.
  { apply network_only_touches. unfold print, exit. auto with phases. }
  apply touches_only_bind;
    [apply network_only_touches, network_only_is_range_supported|].
  intros ok. destruct (negb ok).
  { apply network_only_touches. unfold print, exit. auto with phases. }
  apply touches_only_bind; [apply network_only_touches, network_only_write_chunks|].
  intros parts. apply touches_only_bind; [apply touches_only_open_wb|]. intros _.
  apply touches_only_bind.
  - apply touches_only_for_each. intros p. apply touches_only_write_ab.
  - intros _. apply network_only_touches. unfold print. auto with phases.
Qed.

Lemma only_destination_touched_witness :
  "notes.txt"%string ≠ resolve None demo_url
  ∧ files (mget demo_world demo_url 3 None 4 true 1
             (State {[ "notes.txt"%string := [x2a] ]} [])).2 !! "notes.txt"%string
    = Some [x2a].
Proof.
  assert ("notes.txt"%string ≠ resolve None demo_url) as Hne by discriminate.
  split; [exact Hne|].
  exact (only_destination_touched demo_world demo_url 3 None 4 true 1
           (State {[ "notes.txt"%string := [x2a] ]} []) "notes.txt" Hne).
Defined.

(** ** Assembly on any server *)

(** Results keyed by the multiples of the chunk size come out of [sorted]
    in the order of the keys, whatever they carry. *)
Lemma sorted_keyed (g : Z → Z * list byte) chunk_size (n : nat) (keys' : list Z) :
  (∀ key, (g key).1 = key) → 0 < chunk_size →
  keys' ≡ₚ (λ k : nat, Z.of_nat k * chunk_size) <$> seq 0 n →
  Py.sorted (g <$> keys') = g <$> ((λ k : nat, Z.of_nat k * chunk_size) <$> seq 0 n).
Proof.
  intros Hg Hstep Hperm. unfold Py.sorted.
  rewrite sorted_by_key_only.
  - rewrite (sorted_with_fmap g _ Z.ltb) by (intros x y; by rewrite !Hg).
    f_equal. apply sorted_with_unique; [by apply multiples_Sorted|done].
  - assert ((g <$> keys').*1 = keys') as ->.
    { clear Hperm. induction keys' as [|x l IH]; [done|].
      by rewrite !fmap_cons, IH, Hg. }
    rewrite Hperm. apply multiples_NoDup. lia.
Qed.

(** When every planned fetch yields a response and the destination can be
    written, the destination ends up holding the bodies of the responses,
    one after the other in the order of the plan, whatever the order of
    completion and whatever the server has sent: no status and no length
    is looked at. *)
Theorem assembled_in_plan_order w urlParts chunk_size filename max_chunks force dop st
    probe_resp head_resp len size args :
  may_write force (resolve filename urlParts) st →
  get w (RangeExpr (-1)) = inr probe_resp → status probe_resp = 206 →
  head w = inr head_resp → status head_resp = 200 →
  content_length head_resp = Some len → Py.int len = Some size →
  chunk_args size chunk_size max_chunks = Some args →
  0 < chunk_size → 0 < dop →
  (∀ a, a ∈ args → failed (chunk_result w a) = false) →
  (∀ fs, open_error w fs (resolve filename urlParts) = None) →
  (mget w urlParts chunk_size filename max_chunks force dop st).1 = inr ()
  ∧ files (mget w urlParts chunk_size filename max_chunks force dop st).2
    = <[resolve filename urlParts := concat (chunk_body w <$> args)]> (files st).
Proof.
  intros Hmay Hprobe H206 Hhead H200 Hlen Hint Hargs Hstep Hdop Hok Hopen.
  pose proof (chunk_args_keys _ _ _ _ Hargs) as Hkeys.
  destruct (chunk_args_shape _ _ _ _ Hargs) as [_ Hshape].
  set (g := λ key : Z, (key, chunk_body w (get_chunk_args size chunk_size key))).
  set (mult := (λ k : nat, Z.of_nat k * chunk_size) <$> seq 0 (length args)) in *.
  assert (args = get_chunk_args size chunk_size <$> mult) as Hargs'.
  { unfold mult. by rewrite <- list_fmap_compose. }
  assert (chunk_result w <$> args = (@inr exn _ ∘ g) <$> mult) as Hres.
  { rewrite Hargs' at 1. rewrite <- list_fmap_compose.
    apply list_fmap_ext. intros i key Hkey. simpl.
    assert (get_chunk_args size chunk_size key ∈ args) as Hin.
    { rewrite Hargs'. apply list_elem_of_fmap_2. by eapply list_elem_of_lookup_2. }
    specialize (Hok _ Hin). unfold g, chunk_body. unfold chunk_result in *.
    destruct (get w (RangeFromTo _ _)); [done|reflexivity]. }
  assert (∃ l, mget w urlParts chunk_size filename max_chunks force dop st
               = (inr (),
                  State (<[resolve filename urlParts := concat (chunk_body w <$> args)]>
                           (files st)) l)) as [l Hrun].
  { eexists.
    rewrite (mget_pool_run w urlParts chunk_size filename max_chunks force dop st
               probe_resp head_resp len size args) by done.
    pose proof (as_completed_perm w (chunk_result w <$> args)) as Hperm.
    rewrite Hres in Hperm |- *.
    apply Permutation_map_inv in Hperm as (keys' & -> & Hperm').
    change (map (inr ∘ g) keys') with ((@inr exn _ ∘ g) <$> keys').
    rewrite list_fmap_compose, collect_ok. simpl.
    rewrite (sorted_keyed g chunk_size (length args)) by done.
    erewrite bind_inr by (unfold open_wb; rewrite Hopen; reflexivity).
    erewrite bind_inr
      by (apply append_parts_run; [done|simpl; apply lookup_insert_eq]).
    run. rewrite insert_insert_eq. fold mult.
    rewrite Hargs' at 2. by rewrite <- !list_fmap_compose. }
  rewrite Hrun. done.
Qed.

Lemma assembled_in_plan_order_witness :
  let args := [(0, 2, 0); (3, 5, 3); (6, 8, 6); (9, 10, 9)] in
  chunk_args 10 3 4 = Some args
  ∧ (mget careless_world demo_url 3 None 4 false 1 fresh).1 = inr ()
  ∧ files (mget careless_world demo_url 3 None 4 false 1 fresh).2
    = <[resolve None demo_url := concat (chunk_body careless_world <$> args)]>
        (files fresh).
Proof.
  intros args. split; [reflexivity|].
  apply (assembled_in_plan_order careless_world demo_url 3 None 4 false 1 fresh
           (Response 206 None [x0a]) (Response 200 (Some "10"%string) []) "10" 10 args).
  - right. reflexivity.
  - reflexivity.
  - reflexivity.
  - reflexivity.
  - reflexivity.
  - reflexivity.
  - reflexivity.
  - reflexivity.
  - lia.
  - lia.
  - intros a _. reflexivity.
  - reflexivity.
Defined.

(** On [careless_world] the destination holds the whole file four times. *)
Example careless_run :
  files (mget careless_world demo_url 3 None 4 false 1 fresh).2
  = {[ "data.bin"%string := demo_source ++ demo_source ++ demo_source ++ demo_source ]}.
Proof. reflexivity. Qed.

(** ** A disk that gives out *)

Lemma append_parts_cut faults (k : nat) :
  ∀ (i : nat) (parts : list (Z * list byte)) p (content : list byte) e written,
    (∀ j : nat, (j < k)%nat → faults (i + j)%nat = Disk.Fine) →
    parts !! k = Some p →
    faults (i + k)%nat = Disk.AtOpen e ∧ written = 0%nat
    ∨ faults (i + k)%nat = Disk.AtWrite e written →
    Disk.append_parts faults i parts (Some content)
    = (Some e, Some (content ++ concat (take k parts).*2 ++ take written p.2)).
Proof.
  induction k as [|k IH]; intros i parts p content e written Hfine Hp Hfault.
  - destruct parts as [|q parts]; [done|]. injection Hp as ->.
    rewrite Nat.add_0_r in Hfault. simpl.
    destruct Hfault as [[-> ->]| ->]; simpl; [by rewrite take_0, !app_nil_r|done].
  - destruct parts as [|q parts]; [done|]. simpl in Hp. simpl.
    pose proof (Hfine 0%nat ltac:(lia)) as H0. rewrite Nat.add_0_r in H0.
    rewrite H0. simpl.
    rewrite (IH (S i) parts p (content ++ q.2) e written).
    + by rewrite <- !app_assoc.
    + intros j Hj. replace (S i + j)%nat with (i + S j)%nat by lia. apply Hfine. lia.
    + done.
    + by replace (S i + k)%nat with (i + S k)%nat by lia.
Qed.

(** Without a fault the destination holds all the sorted parts, as in the
    run of [mget]. *)
Lemma assemble_fine faults parts content :
  (∀ j : nat, faults j = Disk.Fine) →
  Disk.assemble faults parts content = (None, Some (concat (Py.sorted parts).*2)).
Proof.
  intros Hfine. unfold Disk.assemble. rewrite Hfine. simpl.
  assert (∀ (l : list (Z * list byte)) (i : nat) (c : list byte),
            Disk.append_parts faults i l (Some c) = (None, Some (c ++ concat l.*2))) as Hall.
  { induction l as [|q l IH]; intros i c; simpl; [by rewrite app_nil_r|].
    rewrite Hfine. simpl. by rewrite IH, <- app_assoc. }
  apply Hall.
Qed.

(** When the destination has been created and the first [k] sorted parts
    have been appended without a fault, and the statement that appends the
    next part raises, at the opening, the writing or the closing, the
    assembly ends with that exception and the destination holds the first
    [k] parts in full, followed by the bytes of the next part that had
    reached the file, and nothing of the parts after it. *)
Theorem assembly_cut_short faults parts content (k : nat) p :
  (∀ j : nat, (j <= k)%nat → faults j = Disk.Fine) →
  Py.sorted parts !! k = Some p →
  faults (S k) ≠ Disk.Fine →
  ∃ e written,
    Disk.assemble faults parts content
    = (Some e, Some (concat (take k (Py.sorted parts)).*2 ++ take written p.2))
    ∧ (faults (S k) = Disk.AtOpen e ∧ written = 0%nat
       ∨ faults (S k) = Disk.AtWrite e written).
Proof.
  intros Hfine Hp Hfault. unfold Disk.assemble.
  rewrite (Hfine 0%nat) by lia. simpl.
  destruct (faults (S k)) as [|e|e written] eqn:Hf; [done| |].
  - exists e, 0%nat. split; [|by left].
    apply (append_parts_cut faults k 1 (Py.sorted parts) p [] e 0);
      [intros j Hj; apply Hfine; lia|done|left; split; [exact Hf|reflexivity]].
  - exists e, written. split; [|by right].
    apply (append_parts_cut faults k 1 (Py.sorted parts) p [] e written);
      [intros j Hj; apply Hfine; lia|done|right; exact Hf].
Qed.

Lemma assembly_cut_short_witness :
  let parts := [(9, [x0a]); (6, [x07; x08; x09]); (3, [x04; x05; x06]);
                (0, [x01; x02; x03])] in
  Py.sorted parts !! 2%nat = Some (6, [x07; x08; x09])
  ∧ ∃ e written,
      Disk.assemble Disk.short_of_space parts None
      = (Some e,
         Some (concat (take 2 (Py.sorted parts)).*2 ++ take written [x07; x08; x09]))
      ∧ (Disk.short_of_space 3 = Disk.AtOpen e ∧ written = 0%nat
         ∨ Disk.short_of_space 3 = Disk.AtWrite e written).
Proof.
  intros parts. split; [reflexivity|].
  apply (assembly_cut_short Disk.short_of_space parts None 2 (6, [x07; x08; x09])).
  - intros [|[|[|j]]] Hj; [reflexivity..|lia].
  - reflexivity.
  - discriminate.
Defined.

(** The run on [short_of_space]: two parts and one byte are on the disk. *)
Example short_of_space_run :
  Disk.assemble Disk.short_of_space
    [(9, [x0a]); (6, [x07; x08; x09]); (3, [x04; x05; x06]); (0, [x01; x02; x03])] None
  = (Some (OSError "no space left"), Some [x01; x02; x03; x04; x05; x06; x07]).
Proof. reflexivity. Qed.

(** ** The name of the destination *)

Lemma append_cons x (a b : string) : String x a +:+ b = String x (a +:+ b).
Proof. reflexivity. Qed.

Lemma append_nil_r (a : string) : a +:+ EmptyString = a.
Proof. induction a as [|x a IH]; [done|]. by rewrite append_cons, IH. Qed.

Lemma append_assoc (a b c : string) : (a +:+ b) +:+ c = a +:+ (b +:+ c).
Proof. induction a as [|x a IH]; [done|]. by rewrite !append_cons, IH. Qed.

Lemma last_part_no_slash s cur : no_slash s → last_part s cur = cur +:+ s.
Proof.
  unfold no_slash. revert cur. induction s as [|c s IH]; intros cur Hs; simpl in *.
  - by rewrite append_nil_r.
  - inversion_clear Hs as [|?? Hc Hs'].
    destruct (Ascii.eqb_spec c "/") as [->|_]; [done|].
    rewrite IH by done. by rewrite append_assoc.
Qed.

Lemma last_part_after_slash p s cur :
  last_part (p +:+ String "/" s) cur = last_part s EmptyString.
Proof.
  revert cur. induction p as [|c p IH]; intros cur; [done|].
  rewrite append_cons. simpl. destruct (Ascii.eqb c "/"); apply IH.
Qed.

(** When no file name is given, or an empty one, the destination is named
    by what follows the last slash of the path of the URL, and by the whole
    path when it has no slash. *)
Theorem derived_filename netloc dir name :
  no_slash name →
  resolve None (UrlParts netloc (dir +:+ String "/" name)) = name
  ∧ resolve (Some EmptyString) (UrlParts netloc (dir +:+ String "/" name)) = name
  ∧ resolve None (UrlParts netloc name) = name.
Proof.
  intros Hname. unfold resolve. simpl.
  by rewrite last_part_after_slash, !last_part_no_slash.
Qed.

Lemma derived_filename_witness :
  no_slash "data.bin"
  ∧ resolve None (UrlParts "example.org" ("/pub" +:+ String "/" "data.bin")) = "data.bin"%string
  ∧ resolve (Some EmptyString) (UrlParts "example.org" ("/pub" +:+ String "/" "data.bin"))
    = "data.bin"%string
  ∧ resolve None (UrlParts "example.org" "data.bin") = "data.bin"%string.
Proof.
  assert (no_slash "data.bin") as Hname.
  { unfold no_slash. simpl. repeat constructor; discriminate. }
  split; [exact Hname|].
  exact (derived_filename "example.org" "/pub" "data.bin" Hname).
Defined.

(** ** The command line *)

Section MainFacts.

Variable w : env.
Variable urlparse : string → url_parts.
Variable repr : string → string.


Lemma set_options_cons s oa opts :
  set_options repr s (oa :: opts)
  = match set_option repr s oa with
    | inl msg => inl msg
    | inr s' => set_options repr s' opts
    end.
Proof. reflexivity. Qed.



Lemma last_value_cons o o' a opts :
  last_value o ((o', a) :: opts)
  = match last_value o opts with
    | Some v => Some v
    | None => if decide (o' = o) then Some a else None
    end.
Proof.
  unfold last_value. rewrite filter_cons. simpl.
  destruct (decide (o' = o)); [|by destruct (last _)].
  rewrite fmap_cons, last_cons. by destruct (last _).
Qed.

Lemma set_option_inr s0 o a s1 :
  set_option repr s0 (o, a) = inr s1 →
  s_url s1 = s_url s0
  ∧ s_filename s1 = (if decide (o = "-o"%string) then Some a else s_filename s0)
  ∧ (if decide (o = "-c"%string) then Py.int a = Some (s_chunk_size s1)
     else s_chunk_size s1 = s_chunk_size s0)
  ∧ (if decide (o = "-m"%string) then Py.int a = Some (s_max_chunks s1)
     else s_max_chunks s1 = s_max_chunks s0)
  ∧ (if decide (o = "-p"%string) then Py.int a = Some (s_dop s1)
     else s_dop s1 = s_dop s0)
  ∧ s_force s1 = (if decide (o = "-f"%string) then true else s_force s0).
Proof.
  unfold set_option, int_arg.
  destruct (String.eqb_spec o "-o") as [->|?]; [by intros [= <-]|].
  destruct (String.eqb_spec o "-c") as [->|?].
  { destruct (Py.int a); [by intros [= <-]|done]. }
  destruct (String.eqb_spec o "-m") as [->|?].
  { destruct (Py.int a); [by intros [= <-]|done]. }
  destruct (String.eqb_spec o "-f") as [->|?]; [by intros [= <-]|].
  destruct (String.eqb_spec o "-p") as [->|?].
  { destruct (Py.int a); [by intros [= <-]|done]. }
  intros [= <-]. by repeat case_decide.
Qed.

Lemma set_options_inr s0 opts s :
  set_options repr s0 opts = inr s →
  s_url s = s_url s0
  ∧ s_filename s = match last_value "-o" opts with Some a => Some a | None => s_filename s0 end
  ∧ match last_value "-c" opts with
    | Some a => Py.int a = Some (s_chunk_size s)
    | None => s_chunk_size s = s_chunk_size s0
    end
  ∧ match last_value "-m" opts with
    | Some a => Py.int a = Some (s_max_chunks s)
    | None => s_max_chunks s = s_max_chunks s0
    end
  ∧ match last_value "-p" opts with
    | Some a => Py.int a = Some (s_dop s)
    | None => s_dop s = s_dop s0
    end
  ∧ (s_force s = true ↔ s_force s0 = true ∨ ∃ a, ("-f"%string, a) ∈ opts).
Proof.
  revert s0. induction opts as [|[o a] opts IH]; intros s0.
  - intros [= <-]. split_and!; try done. split; [by left|].
    by intros [?|[? ?%elem_of_nil]].
  - rewrite set_options_cons.
    destruct (set_option repr s0 (o, a)) as [msg|s1] eqn:Hset; [done|].
    intros Hs. destruct (IH _ Hs) as (Hu & Hf & Hc & Hm & Hp & Hforce).
    destruct (set_option_inr _ _ _ _ Hset) as (Hu1 & Hf1 & Hc1 & Hm1 & Hp1 & Hforce1).
    rewrite !last_value_cons. split_and!.
    + congruence.
    + destruct (last_value "-o" opts); [done|]. rewrite Hf, Hf1.
      by destruct (decide (o = "-o"%string)).
    + destruct (last_value "-c" opts); [done|].
      destruct (decide (o = "-c"%string)); congruence.
    + destruct (last_value "-m" opts); [done|].
      destruct (decide (o = "-m"%string)); congruence.
    + destruct (last_value "-p" opts); [done|].
      destruct (decide (o = "-p"%string)); congruence.
    + rewrite Hforce, Hforce1. split.
      * intros [Htrue|[a' Hin]].
        -- case_decide as Ho; [|by left]. subst o. right. exists a. left.
        -- right. exists a'. by right.
      * intros [Htrue|[a' Hin]].
        -- left. case_decide; done.
        -- apply elem_of_cons in Hin as [[= <- <-]|Hin]; [|eauto].
           left. by rewrite decide_True.
Qed.

(** When a command line written in ASCII is accepted, [getopt] has left
    exactly the URL, and each argument of the call of [mget] is what the
    last occurrence of its option says, or the default when the option is
    absent: 1048576 bytes, 4 chunks, one worker, no file name, no
    overwriting. *)
Theorem options_last_wins prog args s st :
  Forall ascii_text args →
  parse repr args = inr s →
  ∃ opts,
    Getopt.getopt args "o:p:c:m:f" = inr (opts, [s_url s])
    ∧ s_filename s = last_value "-o" opts
    ∧ match last_value "-c" opts with
      | Some a => Py.int a = Some (s_chunk_size s)
      | None => s_chunk_size s = 1048576
      end
    ∧ match last_value "-m" opts with
      | Some a => Py.int a = Some (s_max_chunks s)
      | None => s_max_chunks s = 4
      end
    ∧ match last_value "-p" opts with
      | Some a => Py.int a = Some (s_dop s)
      | None => s_dop s = 1
      end
    ∧ (s_force s = true ↔ ∃ a, ("-f"%string, a) ∈ opts)
    ∧ main w urlparse repr prog args st
      = mget w (urlparse (s_url s)) (s_chunk_size s) (s_filename s) (s_max_chunks s)
          (s_force s) (s_dop s) st.
Proof.
  intros _ Hparse. unfold main. rewrite Hparse. unfold parse in Hparse.
  destruct (Getopt.getopt args "o:p:c:m:f") as [msg|[opts rest]]; [done|].
  destruct rest as [|u [|u' rest]]; [done| |done].
  destruct (set_options_inr _ _ _ Hparse) as (Hu & Hf & Hc & Hm & Hp & Hforce).
  simpl in *. exists opts. rewrite Hu. split_and!; try done.
  - rewrite Hf. by destruct (last_value "-o" opts).
  - rewrite Hforce. split; [by intros [?|?]|by right].
Qed.

(** [getopt] stops at the first argument that is not an option, so options
    written after the URL count as further arguments: the command line is
    turned down with [Must provide url], and nothing is downloaded. *)
Theorem options_after_url_rejected prog u rest st :
  String.prefix "-" u = false → rest ≠ [] →
  main w urlparse repr prog (u :: rest) st
  = (inl (SystemExit 1),
     State (files st) (log st ++ [EvPrint "Must provide url"; EvPrint (usage prog)])).
Proof.
  intros Hu Hrest.
  assert (parse repr (u :: rest) = inl "Must provide url"%string) as Hparse.
  { unfold parse.
    assert (Getopt.getopt (u :: rest) "o:p:c:m:f" = inr ([], u :: rest)) as ->.
    { destruct u as [|c u]; [done|]. simpl in *.
      destruct (Ascii.ascii_dec "-" c) as [<-|Hne].
      - by destruct u.
      - destruct c as [[] [] [] [] [] [] [] []]; try done. }
    by destruct rest. }
  unfold main. rewrite Hparse. run. by rewrite <- app_assoc.
Qed.

End MainFacts.


Lemma options_last_wins_witness :
  let args := ["-c"; "7"; "-c"; "5"; "-f"; "http://example.org/pub/data.bin"]%string in
  let s := Settings "http://example.org/pub/data.bin" 5 None 4 true 1 in
  Forall ascii_text args
  ∧ parse (λ a, a) args = inr s
  ∧ ∃ opts,
      Getopt.getopt args "o:p:c:m:f" = inr (opts, [s_url s])
      ∧ s_filename s = last_value "-o" opts
      ∧ match last_value "-c" opts with
        | Some a => Py.int a = Some (s_chunk_size s)
        | None => s_chunk_size s = 1048576
        end
      ∧ match last_value "-m" opts with
        | Some a => Py.int a = Some (s_max_chunks s)
        | None => s_max_chunks s = 4
        end
      ∧ match last_value "-p" opts with
        | Some a => Py.int a = Some (s_dop s)
        | None => s_dop s = 1
        end
      ∧ (s_force s = true ↔ ∃ a, ("-f"%string, a) ∈ opts)
      ∧ main demo_world (λ _, demo_url) (λ a, a) "mget.py" args fresh
        = mget demo_world ((λ _, demo_url) (s_url s)) (s_chunk_size s) (s_filename s)
            (s_max_chunks s) (s_force s) (s_dop s) fresh.
Proof.
  intros args s. split; [by repeat constructor|]. split; [reflexivity|].
  apply (options_last_wins demo_world (λ _, demo_url) (λ a, a) "mget.py" args s fresh).
  - by repeat constructor.
  - reflexivity.
Defined.

Lemma options_after_url_rejected_witness :
  main demo_world (λ _, demo_url) (λ a, a) "mget.py"
    ["http://example.org/pub/data.bin"; "-f"]%string fresh
  = (inl (SystemExit 1),
     State (files fresh)
           (log fresh ++ [EvPrint "Must provide url"; EvPrint (usage "mget.py")])).
Proof.
  apply (options_after_url_rejected demo_world (λ _, demo_url) (λ a, a) "mget.py"
           "http://example.org/pub/data.bin" ["-f"%string] fresh);
    [reflexivity|discriminate].
Defined.

(** ** The connections *)

(** Decides that a call is not in a list of calls that is written out. *)
Ltac not_among :=
  let H := fresh in
  intros H; repeat (apply elem_of_cons in H as [H|H]; [discriminate H|]);
  by apply elem_of_nil in H.

(** Once the connection is made, [get_head_resp] and [get_chunk] close it
    on every way out, whichever of their calls raises: [close] is the last
    call on the connection, and it is made once. *)
Theorem connection_released fails resp a :
  fails Conn.GetCnn = None →
  (∃ r pre,
     Conn.get_head_resp fails resp Conn.entry
     = (r, (true, Conn.GetCnn :: pre ++ [Conn.Close]))
     ∧ (Conn.Close ∉ pre) ∧ (Conn.GetCnn ∉ pre))
  ∧ (∃ r pre,
       Conn.get_chunk fails resp a Conn.entry
       = (r, (true, Conn.Dot :: Conn.GetCnn :: pre ++ [Conn.Close]))
       ∧ (Conn.Close ∉ pre) ∧ (Conn.GetCnn ∉ pre)).
Proof.
  intros Hcnn. split.
  - unfold Conn.get_head_resp, Conn.try_finally, Conn.get_cnn, Conn.bind, Conn.close,
      Conn.do, Conn.ret, Conn.entry. rewrite Hcnn. simpl.
    destruct (fails (Conn.CnnRequest "HEAD" None)); simpl;
      [destruct (fails Conn.Close); eexists _, [_]; split_and!;
         (reflexivity || not_among)|].
    destruct (fails Conn.GetResponse); simpl;
      [destruct (fails Conn.Close); eexists _, [_; _]; split_and!;
         (reflexivity || not_among)|].
    destruct (fails Conn.Read); simpl;
      destruct (fails Conn.Close); eexists _, [_; _; _]; split_and!;
        (reflexivity || not_among).
  - unfold Conn.get_chunk, Conn.dot, Conn.try_finally, Conn.get_cnn, Conn.bind,
      Conn.close, Conn.do, Conn.ret, Conn.entry. simpl. rewrite Hcnn. simpl.
    destruct (fails (Conn.CnnRequest "GET" _)); simpl;
      [destruct (fails Conn.Close); eexists _, [_]; split_and!;
         (reflexivity || not_among)|].
    destruct (fails Conn.GetResponse); simpl;
      [destruct (fails Conn.Close); eexists _, [_; _]; split_and!;
         (reflexivity || not_among)|].
    destruct (fails Conn.Read); simpl;
      destruct (fails Conn.Close); eexists _, [_; _; _]; split_and!;
        (reflexivity || not_among).
Qed.

Lemma connection_released_witness :
  Conn.read_fails Conn.GetCnn = None
  ∧ (∃ r pre,
       Conn.get_head_resp Conn.read_fails (Response 200 (Some "10"%string) []) Conn.entry
       = (r, (true, Conn.GetCnn :: pre ++ [Conn.Close]))
       ∧ (Conn.Close ∉ pre) ∧ (Conn.GetCnn ∉ pre))
  ∧ (∃ r pre,
       Conn.get_chunk Conn.read_fails (Response 200 (Some "10"%string) []) (0, 2, 0)
         Conn.entry
       = (r, (true, Conn.Dot :: Conn.GetCnn :: pre ++ [Conn.Close]))
       ∧ (Conn.Close ∉ pre) ∧ (Conn.GetCnn ∉ pre)).
Proof.
  split; [reflexivity|].
  apply (connection_released Conn.read_fails (Response 200 (Some "10"%string) []) (0, 2, 0)).
  reflexivity.
Defined.

(** When the connection cannot be made, [get_head_resp] and [get_chunk] do
    not raise the exception of [get_cnn]: their [finally] reads [cnn],
    which is not bound, and the run goes on with [UnboundLocalError].  No
    further call is made. *)
Theorem connection_error_masked fails resp a e :
  fails Conn.GetCnn = Some e →
  Conn.get_head_resp fails resp Conn.entry
  = (inl Conn.UnboundLocalError, (false, [Conn.GetCnn]))
  ∧ Conn.get_chunk fails resp a Conn.entry
    = (inl Conn.UnboundLocalError, (false, [Conn.Dot; Conn.GetCnn])).
Proof.
  intros Hcnn.
  unfold Conn.get_head_resp, Conn.get_chunk, Conn.dot, Conn.try_finally, Conn.get_cnn,
    Conn.bind, Conn.close, Conn.do, Conn.ret, Conn.entry. simpl.
  by rewrite Hcnn.
Qed.

Lemma connection_error_masked_witness :
  Conn.no_connection Conn.GetCnn = Some (OSError "invalid URL")
  ∧ Conn.get_head_resp Conn.no_connection (Response 200 None []) Conn.entry
    = (inl Conn.UnboundLocalError, (false, [Conn.GetCnn]))
  ∧ Conn.get_chunk Conn.no_connection (Response 200 None []) (0, 2, 0) Conn.entry
    = (inl Conn.UnboundLocalError, (false, [Conn.Dot; Conn.GetCnn])).
Proof.
  split; [reflexivity|].
  apply (connection_error_masked Conn.no_connection (Response 200 None []) (0, 2, 0)
           (OSError "invalid URL")).
  reflexivity.
Defined.

(** [is_range_supported] never closes its connection and never reads the
    body of the answer, whichever of its calls raises; the exception of
    [get_cnn], if any, comes out as it is. *)
Theorem probe_connection_left_open fails resp :
  ∃ r bound calls,
    Conn.is_range_supported fails resp Conn.entry = (r, (bound, calls))
    ∧ (Conn.Close ∉ calls) ∧ (Conn.Read ∉ calls)
    ∧ (∀ e, fails Conn.GetCnn = Some e → r = inl (Conn.Raised e))
    ∧ (fails Conn.GetCnn = None → bound = true ∧ Conn.GetCnn ∈ calls).
Proof.
  unfold Conn.is_range_supported, Conn.get_cnn, Conn.bind, Conn.do, Conn.ret,
    Conn.entry. simpl.
  destruct (fails Conn.GetCnn) as [e|]; simpl.
  { eexists _, _, _. split_and!; [reflexivity|not_among..| |done].
    by intros e' [= <-]. }
  destruct (fails (Conn.CnnRequest "GET" _)); simpl.
  { eexists _, _, _. split_and!; [reflexivity|not_among..|done|].
    split; [done|left]. }
  destruct (fails Conn.GetResponse); simpl.
  - eexists _, _, _. split_and!; [reflexivity|not_among..|done|].
    split; [done|left].
  - eexists _, _, _. split_and!; [reflexivity|not_among..|done|].
    split; [done|left].
Qed.
